(** * A four-stage compiler front-end: Lexer, Parser, SemanticAnalyzer, ICG

    Shallow embedding of [app.py].  Python strings are sequences of
    characters; a character is an [ascii], read as the code point of the
    same number (0..255), and the classes [\w], [\s] and [\d] of the
    patterns are those of Python on these code points.  Objects are records
    passed from step to step, exceptions are values of [outcome]; the
    route is given a second time in the process that keeps the instances
    of all requests.  The loops and the recursion of the parser take a
    budget; [Parser.parse] gives them one that is never exhausted.  The
    recursion limit of the interpreter is not part of the model. *)

From Stdlib Require Import Bool Arith Lia List String Ascii NArith.
From Stdlib Require Import DecimalString DecimalNat ListSet.
Import ListNotations.

Open Scope string_scope.
Open Scope list_scope.

(** ** Exceptions *)

Inductive exn : Type :=
| RuntimeError (msg : string)
| TypeError (msg : string).

(** [str(e)] of the handler's [except Exception as e]. *)
Definition str_exn (e : exn) : string :=
  match e with
  | RuntimeError msg => msg
  | TypeError msg => msg
  end.

Inductive outcome (A : Type) : Type :=
| Returned (a : A)
| Raised (e : exn).
Arguments Returned {A} a.
Arguments Raised {A} e.

(** ** Token *)

(** The group names of [Lexer.token_spec]; [Token.type] is one of them. *)
Inductive kind : Type :=
| INCLUDE | KEYWORD | ID | NUM | STRING | OP
| LPAREN | RPAREN | LBRACE | RBRACE | LBRACKET | RBRACKET
| DELIM | SKIP | MISMATCH.

Definition kind_eq_dec (a b : kind) : {a = b} + {a <> b}.
Proof. decide equality. Defined.

Definition kind_eqb (a b : kind) : bool :=
  if kind_eq_dec a b then true else false.

Record Token : Type := mkToken { type : kind; value : string }.

(** ** Lexer *)

Module Lexer.

Definition chr (c : ascii) : N := N_of_ascii c.

Definition between (lo hi c : ascii) : bool :=
  ((chr lo <=? chr c) && (chr c <=? chr hi))%N.

Definition is_digit (c : ascii) : bool := between "0" "9" c.

(** [[a-zA-Z_]] *)
Definition is_id_start (c : ascii) : bool :=
  between "a" "z" c || between "A" "Z" c || Ascii.eqb c "_".

(** Code points 128..255 that [str.isalnum] accepts. *)
Definition is_high_alnum (c : ascii) : bool :=
  let n := chr c in
  ((n =? 170) || (n =? 178) || (n =? 179) || (n =? 181) || (n =? 185)
   || (n =? 186) || ((188 <=? n) && (n <=? 190))
   || ((192 <=? n) && (n <=? 214)) || ((216 <=? n) && (n <=? 246))
   || (248 <=? n))%N.

(** [\w] of a [str] pattern: alphanumeric or underscore. *)
Definition is_word (c : ascii) : bool :=
  is_id_start c || is_digit c || is_high_alnum c.

(** [\s] of a [str] pattern. *)
Definition is_space (c : ascii) : bool :=
  let n := chr c in
  (((9 <=? n) && (n <=? 13)) || ((28 <=? n) && (n <=? 32))
   || (n =? 133) || (n =? 160))%N.

(** [[ \t\n]] *)
Definition is_skip (c : ascii) : bool :=
  Ascii.eqb c " " || Ascii.eqb c "009" || Ascii.eqb c "010".

(** [[=+\-*/<>!]] *)
Definition is_op (c : ascii) : bool :=
  existsb (Ascii.eqb c) ["="; "+"; "-"; "*"; "/"; "<"; ">"; "!"]%char.

(** [[;,]] *)
Definition is_delim (c : ascii) : bool :=
  Ascii.eqb c ";" || Ascii.eqb c ",".

Definition not_gt (c : ascii) : bool := negb (Ascii.eqb c ">").

(** What [.*?] may pass over before the closing quote: [.] excludes the
    newline, and the lazy star stops at the first quote. *)
Definition is_string_body (c : ascii) : bool :=
  negb (Ascii.eqb c "034") && negb (Ascii.eqb c "010").

Definition opt_word (o : option ascii) : bool :=
  match o with
  | Some c => is_word c
  | None => false
  end.

(** [\b] between the character before and the character after a position;
    outside of the string counts as a non-word character. *)
Definition word_boundary (before after : option ascii) : bool :=
  xorb (opt_word before) (opt_word after).

(** Longest prefix whose characters satisfy [f], and what follows it. *)
Fixpoint span (f : ascii -> bool) (s : list ascii) : list ascii * list ascii :=
  match s with
  | [] => ([], [])
  | c :: s' =>
      if f c then let (a, b) := span f s' in (c :: a, b) else ([], s)
  end.

Fixpoint strip_prefix (lit s : list ascii) : option (list ascii) :=
  match lit, s with
  | [], _ => Some s
  | a :: lit', c :: s' => if Ascii.eqb a c then strip_prefix lit' s' else None
  | _ :: _, [] => None
  end.

Definition last_char (l : list ascii) : option ascii :=
  match l with
  | [] => None
  | c :: _ => Some (last l c)
  end.

(** A rule of the alternation, tried at a position: [prev] is the character
    before the position, the list is the text from the position on.  A
    match gives the matched text and the text after it. *)
Definition rule : Type :=
  option ascii -> list ascii -> option (list ascii * list ascii).

(** [#\s*include\s*<[^>]+>] *)
Definition rINCLUDE : rule := fun _ s =>
  match s with
  | c :: s1 =>
      if Ascii.eqb c "#" then
        let (ws1, s2) := span is_space s1 in
        match strip_prefix (list_ascii_of_string "include") s2 with
        | Some s3 =>
            let (ws2, s4) := span is_space s3 in
            match s4 with
            | c4 :: s5 =>
                if Ascii.eqb c4 "<" then
                  let (body, s6) := span not_gt s5 in
                  match body, s6 with
                  | _ :: _, c6 :: s7 =>
                      if Ascii.eqb c6 ">" then
                        Some (c :: ws1 ++ list_ascii_of_string "include"
                                ++ ws2 ++ c4 :: body ++ [c6], s7)
                      else None
                  | _, _ => None
                  end
                else None
            | [] => None
            end
        | None => None
        end
      else None
  | [] => None
  end.

Definition keywords : list string :=
  ["int"; "float"; "char"; "double"; "long"; "short"; "void"; "return";
   "if"; "else"; "for"; "while"; "do"; "printf"; "scanf"; "main"].

(** One alternative of the keyword group followed by the closing [\b]. *)
Definition keyword_at (s : list ascii) (k : string)
  : option (list ascii * list ascii) :=
  let kl := list_ascii_of_string k in
  match strip_prefix kl s with
  | Some rest =>
      if word_boundary (last_char kl) (hd_error rest)
      then Some (kl, rest) else None
  | None => None
  end.

Fixpoint first_keyword (s : list ascii) (ks : list string)
  : option (list ascii * list ascii) :=
  match ks with
  | [] => None
  | k :: ks' =>
      match keyword_at s k with
      | Some m => Some m
      | None => first_keyword s ks'
      end
  end.

(** [\b(int|float|...|main)\b]: the alternatives in their order. *)
Definition rKEYWORD : rule := fun prev s =>
  if word_boundary prev (hd_error s) then first_keyword s keywords else None.

(** [\b[a-zA-Z_]\w*\b]: after the greedy [\w*] the closing [\b] holds, and
    it holds after no shorter run. *)
Definition rID : rule := fun prev s =>
  if word_boundary prev (hd_error s) then
    match s with
    | c :: s1 =>
        if is_id_start c then
          let (ws, rest) := span is_word s1 in
          if word_boundary (last_char (c :: ws)) (hd_error rest)
          then Some (c :: ws, rest) else None
        else None
    | [] => None
    end
  else None.

(** [\b\d+(\.\d+)?\b]: the fraction is tried first; when the [\b] after it
    fails the group is given up and the [\b] is tried after the integer
    part.  Shorter runs of digits end between two digits, where [\b]
    fails. *)
Definition rNUM : rule := fun prev s =>
  if word_boundary prev (hd_error s) then
    let (ds, r1) := span is_digit s in
    match ds with
    | [] => None
    | _ :: _ =>
        let whole :=
          if word_boundary (last_char ds) (hd_error r1)
          then Some (ds, r1) else None in
        match r1 with
        | c :: r2 =>
            if Ascii.eqb c "." then
              let (fs, r3) := span is_digit r2 in
              match fs with
              | [] => whole
              | _ :: _ =>
                  if word_boundary (last_char fs) (hd_error r3)
                  then Some (ds ++ c :: fs, r3) else whole
              end
            else whole
        | [] => whole
        end
    end
  else None.

(** A quote, [.*?], a quote. *)
Definition rSTRING : rule := fun _ s =>
  match s with
  | c :: s1 =>
      if Ascii.eqb c "034" then
        let (body, r) := span is_string_body s1 in
        match r with
        | q :: rest =>
            if Ascii.eqb q "034" then Some (c :: body ++ [q], rest) else None
        | [] => None
        end
      else None
  | [] => None
  end.

(** A rule matching one character of a class. *)
Definition one_of (f : ascii -> bool) : rule := fun _ s =>
  match s with
  | c :: rest => if f c then Some ([c], rest) else None
  | [] => None
  end.

(** [[ \t\n]+] *)
Definition rSKIP : rule := fun _ s =>
  let (ws, rest) := span is_skip s in
  match ws with
  | _ :: _ => Some (ws, rest)
  | [] => None
  end.

(** [.] matches any character but the newline. *)
Definition not_newline (c : ascii) : bool := negb (Ascii.eqb c "010").

Definition token_spec : list (kind * rule) :=
  [ (INCLUDE, rINCLUDE);
    (KEYWORD, rKEYWORD);
    (ID, rID);
    (NUM, rNUM);
    (STRING, rSTRING);
    (OP, one_of is_op);
    (LPAREN, one_of (Ascii.eqb "("));
    (RPAREN, one_of (Ascii.eqb ")"));
    (LBRACE, one_of (Ascii.eqb "{"));
    (RBRACE, one_of (Ascii.eqb "}"));
    (LBRACKET, one_of (Ascii.eqb "["));
    (RBRACKET, one_of (Ascii.eqb "]"));
    (DELIM, one_of is_delim);
    (SKIP, rSKIP);
    (MISMATCH, one_of not_newline) ].

(** The alternation [(?P<INCLUDE>...)|(?P<KEYWORD>...)|...] at a position:
    the first rule of the list that matches there wins; the result is
    [mo.lastgroup], [mo.group()] and the text after the match. *)
Fixpoint first_match (rules : list (kind * rule)) (prev : option ascii)
  (s : list ascii) : option (kind * list ascii * list ascii) :=
  match rules with
  | [] => None
  | (name, r) :: rules' =>
      match r prev s with
      | Some (lexeme, rest) => Some (name, lexeme, rest)
      | None => first_match rules' prev s
      end
  end.

Definition unexpected (lexeme : list ascii) : exn :=
  RuntimeError ("Unexpected character: " ++ string_of_list_ascii lexeme).

(** The loop over [re.finditer(pattern, code)].  The text is walked one
    character at a time: [inside] counts the characters of the current
    match that are still to be passed, and at [inside = 0] the next match
    is searched at the position ([scan_jump] is the loop read match by
    match).  A position where nothing matches is passed over, as
    [finditer] does. *)
Fixpoint scan (prev : option ascii) (inside : nat) (s : list ascii)
  : outcome (list Token) :=
  match s with
  | [] => Returned []
  | c :: s' =>
      match inside with
      | S k => scan (Some c) k s'
      | O =>
          match first_match token_spec prev s with
          | Some (SKIP, lexeme, _) => scan (Some c) (pred (List.length lexeme)) s'
          | Some (MISMATCH, lexeme, _) => Raised (unexpected lexeme)
          | Some (name, lexeme, _) =>
              match scan (Some c) (pred (List.length lexeme)) s' with
              | Returned tokens =>
                  Returned (mkToken name (string_of_list_ascii lexeme) :: tokens)
              | Raised e => Raised e
              end
          | None => scan (Some c) 0 s'
          end
      end
  end.

Definition tokenize (code : string) : outcome (list Token) :=
  scan None 0 (list_ascii_of_string code).

(** A rule consumes a prefix of the text: [mo.group()] and what follows. *)
Definition sound (r : rule) : Prop :=
  forall prev s lexeme rest, r prev s = Some (lexeme, rest) -> s = lexeme ++ rest.

(** A match of a rule when the text after it is followed by [x]. *)
Definition continued (x : list ascii) (m : option (list ascii * list ascii))
  : option (list ascii * list ascii) :=
  match m with
  | Some (lexeme, rest) => Some (lexeme, rest ++ x)
  | None => None
  end.

End Lexer.

(** ** AST *)

(** An expression value of the parser: [None], [('leaf', value)] or
    [('binop', op, left, right)]. *)
Inductive expr : Type :=
| PyNone
| Leaf (v : string)
| BinOp (op : string) (l r : expr).

(** [not expr]: [None] is false, a tuple of the parser is not empty. *)
Definition truthy (e : expr) : bool :=
  match e with
  | PyNone => false
  | _ => true
  end.

(** A statement tuple of [Parser.ast]. *)
Inductive stmt : Type :=
| Include (text : string)
| DeclareVar (typ name : string)
| DeclareArray (typ name size : string)
| AssignExpr (typ name : string) (e : expr)
| Printf (string_value : string).

(** ** Parser *)

Module Parser.

Record t : Type := mk {
  tokens : list Token;
  pos : nat;
  ast : list stmt;
  errors : list string
}.

(** [__init__] *)
Definition init (toks : list Token) : t := mk toks 0 [] [].

Definition advance (p : t) : t :=
  mk (tokens p) (pos p + 1) (ast p) (errors p).

Definition append_ast (p : t) (s : stmt) : t :=
  mk (tokens p) (pos p) (ast p ++ [s]) (errors p).

Definition append_error (p : t) (msg : string) : t :=
  mk (tokens p) (pos p) (ast p) (errors p ++ [msg]).

Definition current (p : t) : option Token := nth_error (tokens p) (pos p).

(** [match(type_, value=None)] *)
Definition match_ (type_ : kind) (val : option string) (p : t)
  : option Token * t :=
  match current p with
  | Some token =>
      if kind_eqb (type token) type_
         && match val with
            | None => true
            | Some v => String.eqb (value token) v
            end
      then (Some token, advance p)
      else (None, p)
  | None => (None, p)
  end.

(** [self.match(a, x) or self.match(b, y)] *)
Definition match_or (a : kind) (x : option string) (b : kind)
  (y : option string) (p : t) : option Token * t :=
  match match_ a x p with
  | (Some token, p1) => (Some token, p1)
  | (None, p1) => match_ b y p1
  end.

Definition lookahead_is_function (p : t) : bool :=
  match nth_error (tokens p) (pos p + 1) with
  | Some token =>
      (kind_eqb (type token) ID || kind_eqb (type token) KEYWORD)
      && String.eqb (value token) "main"
  | None => false
  end.

(** The expression grammar.  Every call and every loop iteration takes one
    unit of [fuel]; [None] is an exhausted budget, never a result of the
    parser. *)
Fixpoint factor (fuel : nat) (p : t) : option (expr * t) :=
  match fuel with
  | O => None
  | S n =>
      match current p with
      | Some tok =>
          if kind_eqb (type tok) NUM || kind_eqb (type tok) ID then
            Some (Leaf (value tok), advance p)
          else if kind_eqb (type tok) LPAREN then
            let (_, p1) := match_ LPAREN None p in
            match add_sub n p1 with
            | Some (e, p2) =>
                let (_, p3) := match_ RPAREN None p2 in Some (e, p3)
            | None => None
            end
          else Some (PyNone, p)
      | None => Some (PyNone, p)
      end
  end

with add_sub (fuel : nat) (p : t) : option (expr * t) :=
  match fuel with
  | O => None
  | S n =>
      match mul_div n p with
      | Some (node, p1) => add_sub_loop n node p1
      | None => None
      end
  end

with add_sub_loop (fuel : nat) (node : expr) (p : t) : option (expr * t) :=
  match fuel with
  | O => None
  | S n =>
      match match_or OP (Some "+") OP (Some "-") p with
      | (Some op_tok, p1) =>
          match mul_div n p1 with
          | Some (right_, p2) =>
              add_sub_loop n (BinOp (value op_tok) node right_) p2
          | None => None
          end
      | (None, p1) => Some (node, p1)
      end
  end

with mul_div (fuel : nat) (p : t) : option (expr * t) :=
  match fuel with
  | O => None
  | S n =>
      match factor n p with
      | Some (node, p1) => mul_div_loop n node p1
      | None => None
      end
  end

with mul_div_loop (fuel : nat) (node : expr) (p : t) : option (expr * t) :=
  match fuel with
  | O => None
  | S n =>
      match match_or OP (Some "*") OP (Some "/") p with
      | (Some op_tok, p1) =>
          match factor n p1 with
          | Some (right_, p2) =>
              mul_div_loop n (BinOp (value op_tok) node right_) p2
          | None => None
          end
      | (None, p1) => Some (node, p1)
      end
  end.

Definition expression (fuel : nat) (p : t) : option (expr * t) :=
  add_sub fuel p.

(** The end of [statement]: the delimiter. *)
Definition statement_delim (p : t) : t :=
  match match_ DELIM None p with
  | (Some _, p1) => p1
  | (None, p1) => append_error p1 "Syntax Error: Missing semicolon"
  end.

(** [statement] from [if self.match('OP', '=')] on. *)
Definition statement_assign (fuel : nat) (type_tok id_tok : Token) (p : t)
  : option t :=
  match match_ OP (Some "=") p with
  | (Some _, p1) =>
      match expression fuel p1 with
      | Some (e, p2) =>
          if truthy e then
            Some (statement_delim
                    (append_ast p2 (AssignExpr (value type_tok) (value id_tok) e)))
          else Some (append_error p2 "Syntax Error: Invalid expression")
      | None => None
      end
  | (None, p1) => Some (statement_delim p1)
  end.

(** [statement] up to the declaration node: [inl] is the parser at an
    early [return], [inr] the two tokens and the parser to go on with. *)
Definition declaration (p : t) : t + (Token * Token * t) :=
  let (type_tok, p1) := match_ KEYWORD None p in
  let (id_tok, p2) := match_ ID None p1 in
  match type_tok, id_tok with
  | Some type_tok, Some id_tok =>
      match match_ LBRACKET None p2 with
      | (Some _, p3) =>
          match match_ NUM None p3 with
          | (Some size_tok, p4) =>
              match match_ RBRACKET None p4 with
              | (Some _, p5) =>
                  inr (type_tok, id_tok,
                       append_ast p5
                         (DeclareArray (value type_tok) (value id_tok)
                            (value size_tok)))
              | (None, p5) =>
                  inl (append_error p5 "Syntax Error: Invalid array declaration")
              end
          | (None, p4) =>
              inl (append_error p4 "Syntax Error: Invalid array declaration")
          end
      | (None, p3) =>
          inr (type_tok, id_tok,
               append_ast p3 (DeclareVar (value type_tok) (value id_tok)))
      end
  | _, _ => inl (advance (append_error p2 "Syntax Error: Invalid declaration"))
  end.

Definition statement (fuel : nat) (p : t) : option t :=
  match declaration p with
  | inl p1 => Some p1
  | inr (type_tok, id_tok, p1) => statement_assign fuel type_tok id_tok p1
  end.

Definition printf_statement (p : t) : t :=
  let (_, p1) := match_ KEYWORD (Some "printf") p in
  match match_ LPAREN None p1 with
  | (None, p2) => append_error p2 "Syntax Error: Expected '('"
  | (Some _, p2) =>
      match match_ STRING None p2 with
      | (None, p3) => append_error p3 "Syntax Error: Expected string in printf"
      | (Some str_tok, p3) =>
          match match_ RPAREN None p3 with
          | (None, p4) => append_error p4 "Syntax Error: Expected ')' in printf"
          | (Some _, p4) =>
              match match_ DELIM None p4 with
              | (None, p5) =>
                  append_error p5 "Syntax Error: Missing semicolon after printf"
              | (Some _, p5) => append_ast p5 (Printf (value str_tok))
              end
          end
      end
  end.

Definition is_printf (token : Token) : bool :=
  kind_eqb (type token) KEYWORD && String.eqb (value token) "printf".

(** The [while] loop of [function_definition]. *)
Fixpoint function_body (fuel : nat) (p : t) : option t :=
  match fuel with
  | O => None
  | S n =>
      match current p with
      | Some token =>
          if kind_eqb (type token) RBRACE then Some p
          else if is_printf token then function_body n (printf_statement p)
          else
            match statement n p with
            | Some p1 => function_body n p1
            | None => None
            end
      | None => Some p
      end
  end.

Definition function_definition (fuel : nat) (p : t) : option t :=
  let (ret_type, p1) := match_ KEYWORD None p in
  let (func_name, p2) := match_or KEYWORD None ID None p1 in
  let (_, p3) := match_ LPAREN None p2 in
  let (_, p4) := match_ RPAREN None p3 in
  match match_ LBRACE None p4 with
  | (None, p5) => Some (append_error p5 "Syntax Error: Missing '{' in function")
  | (Some _, p5) =>
      match function_body fuel p5 with
      | Some p6 =>
          match match_ RBRACE None p6 with
          | (None, p7) =>
              Some (append_error p7 "Syntax Error: Missing '}' in function")
          | (Some _, p7) => Some p7
          end
      | None => None
      end
  end.

(** One iteration of the [while] loop of [parse]. *)
Definition parse_step (fuel : nat) (token : Token) (p : t) : option t :=
  if kind_eqb (type token) INCLUDE then
    Some (advance (append_ast p (Include (value token))))
  else if kind_eqb (type token) KEYWORD then
    if lookahead_is_function p then function_definition fuel p
    else if String.eqb (value token) "printf" then Some (printf_statement p)
    else statement fuel p
  else statement fuel p.

Fixpoint parse_loop (fuel : nat) (p : t) : option t :=
  match fuel with
  | O => None
  | S n =>
      if Nat.ltb (pos p) (List.length (tokens p)) then
        match current p with
        | Some token =>
            match parse_step n token p with
            | Some p1 => parse_loop n p1
            | None => None
            end
        | None => Some p
        end
      else Some p
  end.

(** A budget that [parse_loop] never exhausts (see [parse_loop_enough]). *)
Definition budget (toks : list Token) : nat := 4 * List.length toks + 5.

Definition parse_with (fuel : nat) (toks : list Token)
  : option (list stmt * list string) :=
  match parse_loop fuel (init toks) with
  | Some p => Some (ast p, errors p)
  | None => None
  end.

Definition parse (toks : list Token) : option (list stmt * list string) :=
  parse_with (budget toks) toks.

(** The diagnostics of [statement]. *)
Definition invalid_declaration := "Syntax Error: Invalid declaration".
Definition invalid_array := "Syntax Error: Invalid array declaration".
Definition invalid_expression := "Syntax Error: Invalid expression".
Definition missing_semicolon := "Syntax Error: Missing semicolon".

(** The diagnostics of [printf_statement]. *)
Definition expected_lparen := "Syntax Error: Expected '('".
Definition expected_string := "Syntax Error: Expected string in printf".
Definition expected_rparen := "Syntax Error: Expected ')' in printf".
Definition missing_semicolon_printf := "Syntax Error: Missing semicolon after printf".

(** The token [k] places after the cursor. *)
Definition peek (p : t) (k : nat) : option Token :=
  nth_error (tokens p) (pos p + k).

Definition has_kind (type_ : kind) (o : option Token) : bool :=
  match o with
  | Some token => kind_eqb (type token) type_
  | None => false
  end.

(** Lists of statements in which every assignment comes right after the
    declaration of its own variable. *)
Inductive well_paired : list stmt -> Prop :=
| wp_nil : well_paired []
| wp_include text g : well_paired g -> well_paired (Include text :: g)
| wp_printf sv g : well_paired g -> well_paired (Printf sv :: g)
| wp_declare typ name g : well_paired g -> well_paired (DeclareVar typ name :: g)
| wp_declare_array typ name size g :
    well_paired g -> well_paired (DeclareArray typ name size :: g)
| wp_assign typ name e g :
    well_paired g ->
    well_paired (DeclareVar typ name :: AssignExpr typ name e :: g)
| wp_assign_array typ name size e g :
    well_paired g ->
    well_paired (DeclareArray typ name size :: AssignExpr typ name e :: g).

(** What a construct of the parser does to the parser: the tokens stay, the
    cursor does not go back, and well-paired statements are appended. *)
Definition extends (p p' : t) : Prop :=
  tokens p' = tokens p /\ pos p <= pos p'
  /\ exists g, ast p' = ast p ++ g /\ well_paired g.

(** The tokens that are left from the cursor on. *)
Definition remaining (p : t) : nat := List.length (tokens p) - pos p.

(** What the expression grammar may change: the cursor, forwards. *)
Definition frame (p p' : t) : Prop :=
  tokens p' = tokens p /\ ast p' = ast p /\ errors p' = errors p
  /\ pos p <= pos p'.

End Parser.

(** ** Semantic Analyzer *)

Module SemanticAnalyzer.

Record t : Type := mk {
  symbols : set string;
  errors : list string
}.

(** [__init__] *)
Definition init : t := mk (empty_set string) [].

Definition redeclared (name : string) : string :=
  "Semantic Error: '" ++ name ++ "' redeclared".

Definition undeclared (name : string) : string :=
  "Semantic Error: Undeclared variable '" ++ name ++ "'".

Definition declare (name : string) (a : t) : t :=
  if set_mem string_dec name (symbols a)
  then mk (symbols a) (errors a ++ [redeclared name])
  else mk (set_add string_dec name (symbols a)) (errors a).

(** The body of the [for] loop of [analyze]. *)
Definition visit (a : t) (s : stmt) : t :=
  match s with
  | DeclareVar _ name => declare name a
  | DeclareArray _ name _ => declare name a
  | AssignExpr _ name _ =>
      if set_mem string_dec name (symbols a) then a
      else mk (symbols a) (errors a ++ [undeclared name])
  | Include _ => a
  | Printf _ => a
  end.

Definition run (ast : list stmt) (a : t) : t := fold_left visit ast a.

Definition analyze (ast : list stmt) : list string := errors (run ast init).

End SemanticAnalyzer.

(** ** Intermediate Code Generator *)

Module ICG.

Record t : Type := mk {
  code : list string;
  temp_count : nat
}.

(** [__init__] *)
Definition init : t := mk [] 0.

Definition emit (line : string) (g : t) : t :=
  mk (code g ++ [line]) (temp_count g).

(** [str] of a non-negative [int]. *)
Definition str_int (n : nat) : string :=
  NilZero.string_of_uint (Nat.to_uint n).

Definition temp_name (n : nat) : string := "t" ++ str_int n.

Definition new_temp (g : t) : string * t :=
  let g1 := mk (code g) (temp_count g + 1) in
  (temp_name (temp_count g1), g1).

(** [node[0]] on [None]. *)
Definition not_subscriptable : exn :=
  TypeError "'NoneType' object is not subscriptable".

Fixpoint handle_expr (node : expr) (g : t) : outcome string * t :=
  match node with
  | PyNone => (Raised not_subscriptable, g)
  | Leaf v => (Returned v, g)
  | BinOp op left_ right_ =>
      match handle_expr left_ g with
      | (Returned l, g1) =>
          match handle_expr right_ g1 with
          | (Returned r, g2) =>
              let (temp, g3) := new_temp g2 in
              (Returned temp,
               emit (temp ++ " = " ++ l ++ " " ++ op ++ " " ++ r) g3)
          | (Raised e, g2) => (Raised e, g2)
          end
      | (Raised e, g1) => (Raised e, g1)
      end
  end.

(** The body of the [for] loop of [generate]. *)
Definition visit (s : stmt) (g : t) : outcome unit * t :=
  match s with
  | Include text => (Returned tt, emit text g)
  | DeclareVar typ name => (Returned tt, emit (typ ++ " " ++ name) g)
  | DeclareArray typ name size =>
      (Returned tt, emit (typ ++ " " ++ name ++ "[" ++ size ++ "]") g)
  | AssignExpr _ name e =>
      match handle_expr e g with
      | (Returned result, g1) => (Returned tt, emit (name ++ " = " ++ result) g1)
      | (Raised ex, g1) => (Raised ex, g1)
      end
  | Printf string_value => (Returned tt, emit ("print " ++ string_value) g)
  end.

Fixpoint run (ast : list stmt) (g : t) : outcome unit * t :=
  match ast with
  | [] => (Returned tt, g)
  | s :: rest =>
      match visit s g with
      | (Returned _, g1) => run rest g1
      | (Raised ex, g1) => (Raised ex, g1)
      end
  end.

Definition generate (ast : list stmt) : outcome (list string) :=
  match run ast init with
  | (Returned _, g) => Returned (code g)
  | (Raised ex, _) => Raised ex
  end.

(** The names that the calls of [new_temp] return while [handle_expr] runs,
    in the order of the calls. *)
Fixpoint handle_expr_temps (node : expr) (g : t) : list string :=
  match node with
  | PyNone => []
  | Leaf _ => []
  | BinOp _ left_ right_ =>
      handle_expr_temps left_ g
      ++ match handle_expr left_ g with
         | (Returned _, g1) =>
             handle_expr_temps right_ g1
             ++ match handle_expr right_ g1 with
                | (Returned _, g2) => [fst (new_temp g2)]
                | (Raised _, _) => []
                end
         | (Raised _, _) => []
         end
  end.

Definition visit_temps (s : stmt) (g : t) : list string :=
  match s with
  | AssignExpr _ _ e => handle_expr_temps e g
  | _ => []
  end.

(** The same for a whole run of [generate], up to its return or to the
    exception that ends it. *)
Fixpoint run_temps (ast : list stmt) (g : t) : list string :=
  match ast with
  | [] => []
  | s :: rest =>
      visit_temps s g
      ++ match visit s g with
         | (Returned _, g1) => run_temps rest g1
         | (Raised _, _) => []
         end
  end.

Definition generate_temps (ast : list stmt) : list string := run_temps ast init.

End ICG.

(** ** The [/analyze] route *)

(** The JSON object of the reply: the four lists, or [{"error": ...}]. *)
Inductive Response : Type :=
| Result (tokens : list Token)
    (syntaxErrors semanticErrors intermediateCode : list string)
| Error (error : string).

(** The body of the [try]: what is sent back once the parser has returned. *)
Definition analyze_tokens (toks : list Token) (ast : list stmt)
  (syntax_errors : list string) : Response :=
  let semantic_errors := SemanticAnalyzer.analyze ast in
  match ICG.generate ast with
  | Returned intermediate_code =>
      Result toks syntax_errors semantic_errors intermediate_code
  | Raised e => Error (str_exn e)
  end.

(** [analyze()], on the [code] of the request; [None] only if the parser's
    budget were exhausted (it is not, see [analyze_total]). *)
Definition analyze (code : string) : option Response :=
  match Lexer.tokenize code with
  | Raised e => Some (Error (str_exn e))
  | Returned toks =>
      match Parser.parse toks with
      | Some (ast, syntax_errors) => Some (analyze_tokens toks ast syntax_errors)
      | None => None
      end
  end.

(** ** The process that serves the requests *)

(** The instances that the process holds.  A call of a constructor adds
    one, with the attributes that [__init__] assigns, and a method reads and
    assigns the attributes of the instance it is called on.  [token_spec] is
    assigned once, to the same list, and is left out.  Instances are kept
    after the request that made them. *)
Inductive instance : Type :=
| OfLexer
| OfParser (self : Parser.t)
| OfSemanticAnalyzer (ast : list stmt) (self : SemanticAnalyzer.t)
| OfICG (ast : list stmt) (self : ICG.t).

(** The instances so far, each at its index. *)
Definition process : Type := list instance.

Definition construct (o : instance) (w : process) : nat * process :=
  (List.length w, w ++ [o]).

Fixpoint assign (at_ : nat) (o : instance) (w : process) : process :=
  match w, at_ with
  | [], _ => []
  | _ :: rest, 0 => o :: rest
  | x :: rest, S n => x :: assign n o rest
  end.

(** The methods, on the instance at an index; [None] if the instance there
    is of another class. *)
Definition tokenize_on (lexer : nat) (code : string) (w : process)
  : option (outcome (list Token) * process) :=
  match nth_error w lexer with
  | Some OfLexer => Some (Lexer.tokenize code, w)
  | _ => None
  end.

Definition parse_on (parser : nat) (w : process)
  : option ((list stmt * list string) * process) :=
  match nth_error w parser with
  | Some (OfParser self) =>
      match Parser.parse_loop (Parser.budget (Parser.tokens self)) self with
      | Some self1 =>
          Some ((Parser.ast self1, Parser.errors self1),
                assign parser (OfParser self1) w)
      | None => None
      end
  | _ => None
  end.

Definition analyze_on (semantic : nat) (w : process)
  : option (list string * process) :=
  match nth_error w semantic with
  | Some (OfSemanticAnalyzer ast self) =>
      let self1 := SemanticAnalyzer.run ast self in
      Some (SemanticAnalyzer.errors self1,
            assign semantic (OfSemanticAnalyzer ast self1) w)
  | _ => None
  end.

Definition generate_on (icg : nat) (w : process)
  : option (outcome (list string) * process) :=
  match nth_error w icg with
  | Some (OfICG ast self) =>
      match ICG.run ast self with
      | (Returned _, self1) =>
          Some (Returned (ICG.code self1), assign icg (OfICG ast self1) w)
      | (Raised ex, self1) =>
          Some (Raised ex, assign icg (OfICG ast self1) w)
      end
  | _ => None
  end.

(** [analyze()] in the process: the reply, and the process after it. *)
Definition analyze_in (code : string) (w : process)
  : option (Response * process) :=
  let (lexer, w1) := construct OfLexer w in
  match tokenize_on lexer code w1 with
  | Some (Returned toks, w2) =>
      let (parser, w3) := construct (OfParser (Parser.init toks)) w2 in
      match parse_on parser w3 with
      | Some ((ast, syntax_errors), w4) =>
          let (semantic, w5) :=
            construct (OfSemanticAnalyzer ast SemanticAnalyzer.init) w4 in
          match analyze_on semantic w5 with
          | Some (semantic_errors, w6) =>
              let (icg, w7) := construct (OfICG ast ICG.init) w6 in
              match generate_on icg w7 with
              | Some (Returned intermediate_code, w8) =>
                  Some (Result toks syntax_errors semantic_errors
                          intermediate_code, w8)
              | Some (Raised e, w8) => Some (Error (str_exn e), w8)
              | None => None
              end
          | None => None
          end
      | None => None
      end
  | Some (Raised e, w2) => Some (Error (str_exn e), w2)
  | None => None
  end.

(** Successive requests to the route, each in the process that the one
    before it has left. *)
Fixpoint serve (requests : list string) (w : process)
  : list (option Response) :=
  match requests with
  | [] => []
  | code :: rest =>
      match analyze_in code w with
      | Some (r, w1) => Some r :: serve rest w1
      | None => None :: serve rest w
      end
  end.

(** The tokens of ["int x = 5 + ;"]. *)
Definition partial_tokens : list Token :=
  [mkToken KEYWORD "int"; mkToken ID "x"; mkToken OP "=";
   mkToken NUM "5"; mkToken OP "+"; mkToken DELIM ";"].

(** ** Vocabulary of the further properties *)

(** The lines [name = rhs] that define the given names, one for each, in
    order. *)
Fixpoint definitions (names rhss : list string) : list string :=
  match names, rhss with
  | n :: ns, r :: rs => (n ++ " = " ++ r)%string :: definitions ns rs
  | _, _ => []
  end.

(** Whether [None] occurs in an expression value. *)
Fixpoint contains_none (e : expr) : bool :=
  match e with
  | PyNone => true
  | Leaf _ => false
  | BinOp _ l r => contains_none l || contains_none r
  end.

(** The number of operator nodes of an expression value. *)
Fixpoint binops (e : expr) : nat :=
  match e with
  | BinOp _ l r => binops l + binops r + 1
  | _ => 0
  end.

Definition stmt_contains_none (s : stmt) : bool :=
  match s with
  | AssignExpr _ _ e => contains_none e
  | _ => false
  end.

Definition stmt_binops (s : stmt) : nat :=
  match s with
  | AssignExpr _ _ e => binops e
  | _ => 0
  end.

(** The name that a statement declares. *)
Definition declared_name (s : stmt) : option string :=
  match s with
  | DeclareVar _ name => Some name
  | DeclareArray _ name _ => Some name
  | _ => None
  end.

(** The names declared by a list of statements, in their order. *)
Fixpoint declared (ast : list stmt) : list string :=
  match ast with
  | [] => []
  | s :: rest =>
      match declared_name s with
      | Some name => name :: declared rest
      | None => declared rest
      end
  end.

(** Two statements that differ at most in the type and in the expression of
    an assignment. *)
Definition same_target (s s' : stmt) : Prop :=
  match s, s' with
  | AssignExpr _ name _, AssignExpr _ name' _ => name = name'
  | _, _ => s = s'
  end.

(** The characters of a text that are not blanks of the [SKIP] rule. *)
Definition visible (s : list ascii) : list ascii :=
  filter (fun c => negb (Lexer.is_skip c)) s.

(** The characters of the values of the tokens, one token after the other. *)
Definition token_text (toks : list Token) : list ascii :=
  flat_map (fun t => list_ascii_of_string (value t)) toks.

(** A text of the shape of an identifier: a letter or an underscore, then
    word characters. *)
Definition is_identifier (s : list ascii) : bool :=
  match s with
  | c :: ws => Lexer.is_id_start c && forallb Lexer.is_word ws
  | [] => false
  end.

(** One of the sixteen words of the [KEYWORD] pattern. *)
Definition is_keyword (w : string) : bool :=
  existsb (String.eqb w) Lexer.keywords.

(** The tokens from the cursor on. *)
Definition ahead (p : Parser.t) : list Token :=
  skipn (Parser.pos p) (Parser.tokens p).

(** A token that [factor] turns into a leaf. *)
Definition is_leaf (t : Token) : bool :=
  kind_eqb (type t) NUM || kind_eqb (type t) ID.

(** An [OP] token whose value is [a] or [b]. *)
Definition is_operator (a b : string) (t : Token) : bool :=
  kind_eqb (type t) OP && (String.eqb (value t) a || String.eqb (value t) b).

(** A product without parentheses: a leaf, then operators [*] or [/] each
    with a leaf. *)
Definition product : Type := (Token * list (Token * Token))%type.

Definition product_ok (pr : product) : Prop :=
  is_leaf (fst pr) = true
  /\ Forall (fun ot => is_operator "*" "/" (fst ot) = true
                       /\ is_leaf (snd ot) = true) (snd pr).

Definition product_tokens (pr : product) : list Token :=
  fst pr :: flat_map (fun ot => [fst ot; snd ot]) (snd pr).

(** The tree of a product: the operators applied from left to right. *)
Definition product_tree (pr : product) : expr :=
  fold_left (fun acc ot => BinOp (value (fst ot)) acc (Leaf (value (snd ot))))
    (snd pr) (Leaf (value (fst pr))).

(** A sum without parentheses: a product, then operators [+] or [-] each
    with a product. *)
Definition sum : Type := (product * list (Token * product))%type.

Definition sum_ok (sm : sum) : Prop :=
  product_ok (fst sm)
  /\ Forall (fun op => is_operator "+" "-" (fst op) = true
                       /\ product_ok (snd op)) (snd sm).

Definition sum_tokens (sm : sum) : list Token :=
  product_tokens (fst sm)
  ++ flat_map (fun op => fst op :: product_tokens (snd op)) (snd sm).

(** The tree of a sum: products first, then the sum from left to right. *)
Definition sum_tree (sm : sum) : expr :=
  fold_left (fun acc op => BinOp (value (fst op)) acc (product_tree (snd op)))
    (snd sm) (product_tree (fst sm)).

(** The text after an expression does not go on with an operator. *)
Definition ends_expression (post : list Token) : Prop :=
  match post with
  | [] => True
  | t :: _ => is_operator "+" "-" t = false /\ is_operator "*" "/" t = false
  end.

(** The diagnostics that the parser can record. *)
Definition syntax_messages : list string :=
  ["Syntax Error: Missing '{' in function";
   "Syntax Error: Missing '}' in function";
   "Syntax Error: Invalid declaration";
   "Syntax Error: Invalid array declaration";
   "Syntax Error: Invalid expression";
   "Syntax Error: Missing semicolon";
   "Syntax Error: Expected '('";
   "Syntax Error: Expected string in printf";
   "Syntax Error: Expected ')' in printf";
   "Syntax Error: Missing semicolon after printf"].

(** The diagnostics of [p'] are those of [p] and then some of the list. *)
Definition reports (p p' : Parser.t) : Prop :=
  exists new,
    Parser.errors p' = Parser.errors p ++ new
    /\ Forall (fun msg => In msg syntax_messages) new.

(** * Properties of the parser *)

Ltac split5 := split; [| split; [| split; [| split]]].

Section ParserFrames.

Import Parser.

Lemma frame_refl p : frame p p.
Proof. unfold frame; auto. Qed.

Lemma frame_trans p q r : frame p q -> frame q r -> frame p r.
Proof.
  unfold frame; intros (A & B & C & D) (A' & B' & C' & D').
  repeat split; try congruence; lia.
Qed.

Lemma frame_advance p : frame p (advance p).
Proof. unfold frame; simpl; repeat split; auto; lia. Qed.

Lemma current_Some_lt p tok : current p = Some tok -> pos p < List.length (tokens p).
Proof. unfold current; intros H. apply nth_error_Some. congruence. Qed.

Lemma remaining_advance p tok :
  current p = Some tok -> S (remaining (advance p)) = remaining p.
Proof. intros H%current_Some_lt. unfold remaining; simpl. lia. Qed.

Lemma frame_remaining p p' : frame p p' -> remaining p' <= remaining p.
Proof. unfold frame, remaining; intros (A & _ & _ & D). rewrite A. lia. Qed.

(** [match] either leaves the parser as it is or passes the current token. *)
Lemma match_cases type_ val p :
  (match_ type_ val p = (None, p))
  \/ (exists tok, current p = Some tok /\ type tok = type_
                  /\ match val with None => True | Some v => value tok = v end
                  /\ match_ type_ val p = (Some tok, advance p)).
Proof.
  unfold match_. destruct (current p) as [tok|]; auto.
  destruct (kind_eqb (type tok) type_) eqn:K; simpl; auto.
  unfold kind_eqb in K. destruct (kind_eq_dec (type tok) type_); try discriminate.
  destruct val as [v|].
  - destruct (String.eqb_spec (value tok) v); auto.
    right. exists tok; auto.
  - right. exists tok; auto.
Qed.

Lemma match_frame type_ val p o p' :
  match_ type_ val p = (o, p') -> frame p p'.
Proof.
  destruct (match_cases type_ val p) as [E | (tok & _ & _ & _ & E)];
    rewrite E; intros [= <- <-]; auto using frame_refl, frame_advance.
Qed.

Lemma match_or_cases a x b y p :
  (match_or a x b y p = (None, p))
  \/ (exists tok, current p = Some tok
                  /\ (type tok = a \/ type tok = b)
                  /\ match_or a x b y p = (Some tok, advance p)).
Proof.
  unfold match_or.
  destruct (match_cases a x p) as [E | (tok & C & T & _ & E)]; rewrite E.
  - destruct (match_cases b y p) as [E' | (tok & C & T & _ & E')]; rewrite E'; auto.
    right; exists tok; auto.
  - right; exists tok; auto.
Qed.

Lemma match_or_frame a x b y p o p' :
  match_or a x b y p = (o, p') -> frame p p'.
Proof.
  destruct (match_or_cases a x b y p) as [E | (tok & _ & _ & E)];
    rewrite E; intros [= <- <-]; auto using frame_refl, frame_advance.
Qed.

(** The expression grammar touches neither the tree nor the diagnostics,
    and never moves the cursor backwards. *)
Lemma expr_frame n :
  (forall p e p', factor n p = Some (e, p') -> frame p p')
  /\ (forall p e p', add_sub n p = Some (e, p') -> frame p p')
  /\ (forall node p e p', add_sub_loop n node p = Some (e, p') -> frame p p')
  /\ (forall p e p', mul_div n p = Some (e, p') -> frame p p')
  /\ (forall node p e p', mul_div_loop n node p = Some (e, p') -> frame p p').
Proof.
  induction n as [|n (IHf & IHa & IHal & IHm & IHml)].
  - split5; simpl; intros; discriminate.
  - split5; simpl.
    + intros p e p'. destruct (current p) as [tok|] eqn:C.
      * destruct (kind_eqb (type tok) NUM || kind_eqb (type tok) ID).
        { intros [= <- <-]. apply frame_advance. }
        destruct (kind_eqb (type tok) LPAREN).
        { destruct (match_ LPAREN None p) as [o p1] eqn:M1.
          destruct (add_sub n p1) as [[e1 p2]|] eqn:A; try discriminate.
          destruct (match_ RPAREN None p2) as [o2 p3] eqn:M2.
          intros [= <- <-].
          apply frame_trans with p1; [eapply match_frame; eauto |].
          apply frame_trans with p2; [eapply IHa; eauto |].
          eapply match_frame; eauto. }
        intros [= <- <-]. apply frame_refl.
      * intros [= <- <-]. apply frame_refl.
    + intros p e p'. destruct (mul_div n p) as [[node p1]|] eqn:M; try discriminate.
      intros H. eauto using frame_trans.
    + intros node p e p'.
      destruct (match_or OP (Some "+") OP (Some "-") p) as [[op|] p1] eqn:M.
      * destruct (mul_div n p1) as [[r p2]|] eqn:M2; try discriminate.
        intros H. apply frame_trans with p1; [eapply match_or_frame; eauto |].
        apply frame_trans with p2; eauto.
      * intros [= <- <-]. eapply match_or_frame; eauto.
    + intros p e p'. destruct (factor n p) as [[node p1]|] eqn:M; try discriminate.
      intros H. eauto using frame_trans.
    + intros node p e p'.
      destruct (match_or OP (Some "*") OP (Some "/") p) as [[op|] p1] eqn:M.
      * destruct (factor n p1) as [[r p2]|] eqn:M2; try discriminate.
        intros H. apply frame_trans with p1; [eapply match_or_frame; eauto |].
        apply frame_trans with p2; eauto.
      * intros [= <- <-]. eapply match_or_frame; eauto.
Qed.

Lemma expression_frame n p e p' : expression n p = Some (e, p') -> frame p p'.
Proof. unfold expression. apply (expr_frame n). Qed.

(** A larger budget gives the same result. *)
Lemma expr_mono n :
  forall m, n <= m ->
  (forall p r, factor n p = Some r -> factor m p = Some r)
  /\ (forall p r, add_sub n p = Some r -> add_sub m p = Some r)
  /\ (forall node p r, add_sub_loop n node p = Some r -> add_sub_loop m node p = Some r)
  /\ (forall p r, mul_div n p = Some r -> mul_div m p = Some r)
  /\ (forall node p r, mul_div_loop n node p = Some r -> mul_div_loop m node p = Some r).
Proof.
  induction n as [|n IH]; intros m Hm.
  - split5; simpl; intros; discriminate.
  - destruct m as [|m]; [lia|].
    destruct (IH m ltac:(lia)) as (IHf & IHa & IHal & IHm & IHml).
    split5; simpl.
    + intros p r. destruct (current p) as [tok|]; auto.
      destruct (kind_eqb (type tok) NUM || kind_eqb (type tok) ID); auto.
      destruct (kind_eqb (type tok) LPAREN); auto.
      destruct (match_ LPAREN None p) as [o p1].
      destruct (add_sub n p1) as [[e1 p2]|] eqn:A; try discriminate.
      rewrite (IHa _ _ A). auto.
    + intros p r. destruct (mul_div n p) as [[node p1]|] eqn:M; try discriminate.
      rewrite (IHm _ _ M). auto.
    + intros node p r.
      destruct (match_or OP (Some "+") OP (Some "-") p) as [[op|] p1]; auto.
      destruct (mul_div n p1) as [[e p2]|] eqn:M; try discriminate.
      rewrite (IHm _ _ M). auto.
    + intros p r. destruct (factor n p) as [[node p1]|] eqn:M; try discriminate.
      rewrite (IHf _ _ M). auto.
    + intros node p r.
      destruct (match_or OP (Some "*") OP (Some "/") p) as [[op|] p1]; auto.
      destruct (factor n p1) as [[e p2]|] eqn:M; try discriminate.
      rewrite (IHf _ _ M). auto.
Qed.

(** Four units per remaining token, and a few more, are enough. *)
Lemma expr_enough n :
  (forall p, 4 * remaining p + 1 <= n -> exists r, factor n p = Some r)
  /\ (forall p, 4 * remaining p + 3 <= n -> exists r, add_sub n p = Some r)
  /\ (forall node p, 4 * remaining p + 2 <= n ->
                     exists r, add_sub_loop n node p = Some r)
  /\ (forall p, 4 * remaining p + 2 <= n -> exists r, mul_div n p = Some r)
  /\ (forall node p, 4 * remaining p + 1 <= n ->
                     exists r, mul_div_loop n node p = Some r).
Proof.
  induction n as [|n (IHf & IHa & IHal & IHm & IHml)].
  - split5; intros; lia.
  - split5; simpl.
    + intros p Hn. destruct (current p) as [tok|] eqn:C; eauto.
      destruct (kind_eqb (type tok) NUM || kind_eqb (type tok) ID); eauto.
      destruct (kind_eqb (type tok) LPAREN) eqn:K; eauto.
      destruct (match_cases LPAREN None p) as [E | (tok' & _ & _ & _ & E)];
        rewrite E.
      * unfold match_ in E. rewrite C, K in E. discriminate.
      * pose proof (remaining_advance _ _ C) as R.
        destruct (IHa (advance p) ltac:(lia)) as ([e p2] & A). rewrite A.
        destruct (match_ RPAREN None p2); eauto.
    + intros p Hn. destruct (IHm p ltac:(lia)) as ([node p1] & M). rewrite M.
      apply (expr_frame n) in M. apply frame_remaining in M.
      apply IHal. lia.
    + intros node p Hn.
      destruct (match_or_cases OP (Some "+") OP (Some "-") p)
        as [E | (tok & C & _ & E)]; rewrite E; eauto.
      pose proof (remaining_advance _ _ C) as R.
      destruct (IHm (advance p) ltac:(lia)) as ([e p2] & M). rewrite M.
      apply (expr_frame n) in M. apply frame_remaining in M.
      apply IHal. lia.
    + intros p Hn. destruct (IHf p ltac:(lia)) as ([node p1] & M). rewrite M.
      apply (expr_frame n) in M. apply frame_remaining in M.
      apply IHml. lia.
    + intros node p Hn.
      destruct (match_or_cases OP (Some "*") OP (Some "/") p)
        as [E | (tok & C & _ & E)]; rewrite E; eauto.
      pose proof (remaining_advance _ _ C) as R.
      destruct (IHf (advance p) ltac:(lia)) as ([e p2] & M). rewrite M.
      apply (expr_frame n) in M. apply frame_remaining in M.
      apply IHml. lia.
Qed.

Lemma match_inv type_ val p o p' :
  match_ type_ val p = (o, p') ->
  (o = None /\ p' = p)
  \/ (exists tok, o = Some tok /\ current p = Some tok /\ type tok = type_
                  /\ match val with None => True | Some v => value tok = v end
                  /\ p' = advance p).
Proof.
  destruct (match_cases type_ val p) as [E | (tok & C & T & V & E)];
    rewrite E; intros [= <- <-]; auto.
  right; exists tok; auto.
Qed.

Ltac inv_match E :=
  apply match_inv in E;
  let tok := fresh "tok" in
  let C := fresh "C" in
  let T := fresh "T" in
  let V := fresh "V" in
  destruct E as [[-> ->] | (tok & -> & C & T & V & ->)].

(** ** The generic statement *)

(** An early return of the declaration part: one diagnostic, no node, and
    the cursor has moved. *)
Lemma declaration_inl p p' :
  declaration p = inl p' ->
  tokens p' = tokens p /\ pos p < pos p' /\ ast p' = ast p
  /\ (errors p' = errors p ++ [invalid_declaration]
      \/ errors p' = errors p ++ [invalid_array]).
Proof.
  unfold declaration.
  destruct (match_ KEYWORD None p) as [o1 p1] eqn:E1.
  destruct (match_ ID None p1) as [o2 p2] eqn:E2.
  inv_match E1; inv_match E2; simpl.
  - intros [= <-]; simpl. repeat split; auto; lia.
  - intros [= <-]; simpl. repeat split; auto; lia.
  - intros [= <-]; simpl. repeat split; auto; lia.
  - destruct (match_ LBRACKET None _) as [o3 p3] eqn:E3.
    inv_match E3; [discriminate|].
    destruct (match_ NUM None _) as [o4 p4] eqn:E4.
    inv_match E4.
    + intros [= <-]; simpl. repeat split; auto; lia.
    + destruct (match_ RBRACKET None _) as [o5 p5] eqn:E5.
      inv_match E5; [|discriminate].
      intros [= <-]; simpl. repeat split; auto; lia.
Qed.

(** The declaration part going on: the type and the name were matched at
    the cursor, and exactly the declaration node was appended. *)
Lemma declaration_inr p type_tok id_tok p' :
  declaration p = inr (type_tok, id_tok, p') ->
  tokens p' = tokens p /\ pos p + 2 <= pos p' /\ errors p' = errors p
  /\ current p = Some type_tok /\ type type_tok = KEYWORD /\ type id_tok = ID
  /\ (ast p' = ast p ++ [DeclareVar (value type_tok) (value id_tok)]
      \/ exists size,
          ast p' = ast p ++ [DeclareArray (value type_tok) (value id_tok) size]).
Proof.
  unfold declaration.
  destruct (match_ KEYWORD None p) as [o1 p1] eqn:E1.
  destruct (match_ ID None p1) as [o2 p2] eqn:E2.
  inv_match E1; inv_match E2; simpl; try discriminate.
  destruct (match_ LBRACKET None _) as [o3 p3] eqn:E3.
  inv_match E3.
  - intros [= <- <- <-]; simpl. repeat split; auto; lia.
  - destruct (match_ NUM None _) as [o4 p4] eqn:E4.
    inv_match E4; [discriminate|].
    destruct (match_ RBRACKET None _) as [o5 p5] eqn:E5.
    inv_match E5; [discriminate|].
    intros [= <- <- <-]; simpl. repeat split; eauto; lia.
Qed.

Lemma statement_delim_spec p :
  tokens (statement_delim p) = tokens p /\ pos p <= pos (statement_delim p)
  /\ ast (statement_delim p) = ast p
  /\ (errors (statement_delim p) = errors p
      \/ errors (statement_delim p) = errors p ++ [missing_semicolon]).
Proof.
  unfold statement_delim.
  destruct (match_ DELIM None p) as [o1 p1] eqn:E1.
  inv_match E1; simpl; repeat split; auto; lia.
Qed.

(** The assignment part: the expression is parsed after a matched [=]; a
    true expression value appends the node, [None] records the diagnostic. *)
Lemma statement_assign_spec fuel type_tok id_tok p p' :
  statement_assign fuel type_tok id_tok p = Some p' ->
  tokens p' = tokens p /\ pos p <= pos p'
  /\ ((ast p' = ast p /\ (errors p' = errors p
                          \/ errors p' = errors p ++ [missing_semicolon]
                          \/ errors p' = errors p ++ [invalid_expression]))
      \/ (exists e, truthy e = true
                    /\ ast p' = ast p ++ [AssignExpr (value type_tok) (value id_tok) e]
                    /\ (errors p' = errors p
                        \/ errors p' = errors p ++ [missing_semicolon]))).
Proof.
  unfold statement_assign.
  destruct (match_ OP (Some "=") p) as [o1 p1] eqn:E1.
  inv_match E1.
  - intros [= <-].
    destruct (statement_delim_spec p) as (A & B & C' & D).
    repeat split; auto. left; split; auto. tauto.
  - destruct (expression fuel (advance p)) as [[e p2]|] eqn:X; [|discriminate].
    apply expression_frame in X. destruct X as (X1 & X2 & X3 & X4).
    simpl in *.
    destruct (truthy e) eqn:Te; intros [= <-].
    + match goal with |- context [statement_delim ?q] =>
        destruct (statement_delim_spec q) as (A & B & C' & D) end.
      simpl in *. rewrite A, C'.
      repeat split; try congruence; try lia.
      right. exists e. rewrite X2, <- X3. repeat split; auto.
    + simpl. repeat split; try congruence; try lia.
      left. split; auto. right; right. rewrite X3. reflexivity.
Qed.

(** Every call of [statement] moves the cursor. *)
Lemma statement_progress fuel p p' :
  statement fuel p = Some p' -> tokens p' = tokens p /\ pos p < pos p'.
Proof.
  unfold statement. destruct (declaration p) as [q | [[ty id] q]] eqn:D.
  - intros [= <-]. apply declaration_inl in D. tauto.
  - intros H. apply declaration_inr in D. apply statement_assign_spec in H.
    destruct D as (A & B & _), H as (A' & B' & _). split; [congruence | lia].
Qed.

Lemma statement_mono n m p r :
  n <= m -> statement n p = Some r -> statement m p = Some r.
Proof.
  intros Hm. unfold statement, statement_assign, expression.
  destruct (declaration p) as [q | [[ty id] q]]; auto.
  destruct (match_ OP (Some "=") q) as [[eq|] p1]; auto.
  destruct (add_sub n p1) as [[e p2]|] eqn:A; [|discriminate].
  apply (expr_mono n m Hm) in A. rewrite A. auto.
Qed.

Lemma statement_enough n p :
  4 * remaining p + 3 <= n -> exists r, statement n p = Some r.
Proof.
  intros Hn. unfold statement.
  destruct (declaration p) as [q | [[ty id] q]] eqn:D; eauto.
  apply declaration_inr in D. destruct D as (A & B & _).
  unfold statement_assign, expression.
  destruct (match_ OP (Some "=") q) as [o1 p1] eqn:E1.
  pose proof (match_frame _ _ _ _ _ E1) as F. apply frame_remaining in F.
  assert (remaining q <= remaining p) by (unfold remaining; rewrite A; lia).
  destruct o1; eauto.
  destruct (proj1 (proj2 (expr_enough n)) p1 ltac:(lia)) as ([e p2] & X).
  rewrite X. destruct (truthy e); eauto.
Qed.

(** ** Appending well-paired statements *)

Lemma well_paired_app g h : well_paired g -> well_paired h -> well_paired (g ++ h).
Proof. induction 1; simpl; auto using well_paired. Qed.

Lemma extends_refl p : extends p p.
Proof.
  repeat split; auto. exists []. rewrite app_nil_r. auto using well_paired.
Qed.

Lemma extends_trans p q r : extends p q -> extends q r -> extends p r.
Proof.
  intros (A & B & g & C & D) (A' & B' & h & C' & D').
  repeat split; try congruence; try lia.
  exists (g ++ h). rewrite C', C, app_assoc. auto using well_paired_app.
Qed.

Lemma extends_same p p' :
  tokens p' = tokens p -> pos p <= pos p' -> ast p' = ast p -> extends p p'.
Proof.
  intros A B C. repeat split; auto. exists []. rewrite app_nil_r.
  auto using well_paired.
Qed.

Lemma extends_append p p' g :
  tokens p' = tokens p -> pos p <= pos p' -> ast p' = ast p ++ g ->
  well_paired g -> extends p p'.
Proof. intros A B C D. repeat split; eauto. Qed.

Lemma statement_extends fuel p p' : statement fuel p = Some p' -> extends p p'.
Proof.
  unfold statement. destruct (declaration p) as [q | [[ty id] q]] eqn:D.
  - intros [= <-]. apply declaration_inl in D. destruct D as (A & B & C & _).
    apply extends_same; auto; lia.
  - intros H. apply declaration_inr in D. apply statement_assign_spec in H.
    destruct D as (A & B & _ & _ & _ & _ & D), H as (A' & B' & H).
    destruct H as [(H & _) | (e & _ & H & _)];
      destruct D as [D | (size & D)]; rewrite D in H;
      rewrite <- ?app_assoc in H; simpl in H;
      (eapply extends_append; [congruence | lia | exact H |]);
      auto using well_paired.
Qed.

(** ** The printf statement *)

Lemma printf_statement_extends p : extends p (printf_statement p).
Proof.
  unfold printf_statement.
  destruct (match_ KEYWORD (Some "printf") p) as [o0 p0] eqn:E0.
  apply match_frame in E0. destruct E0 as (A0 & B0 & _ & D0).
  destruct (match_ LPAREN None p0) as [o1 p1] eqn:E1.
  pose proof (match_frame _ _ _ _ _ E1) as (A1 & B1 & _ & D1).
  destruct o1; [| apply extends_same; simpl; try congruence; lia].
  destruct (match_ STRING None p1) as [o2 p2] eqn:E2.
  pose proof (match_frame _ _ _ _ _ E2) as (A2 & B2 & _ & D2).
  destruct o2; [| apply extends_same; simpl; try congruence; lia].
  destruct (match_ RPAREN None p2) as [o3 p3] eqn:E3.
  pose proof (match_frame _ _ _ _ _ E3) as (A3 & B3 & _ & D3).
  destruct o3; [| apply extends_same; simpl; try congruence; lia].
  destruct (match_ DELIM None p3) as [o4 p4] eqn:E4.
  pose proof (match_frame _ _ _ _ _ E4) as (A4 & B4 & _ & D4).
  destruct o4; [| apply extends_same; simpl; try congruence; lia].
  eapply extends_append; simpl; [congruence | lia | |].
  - f_equal. congruence.
  - auto using well_paired.
Qed.

Lemma is_printf_match p tok :
  current p = Some tok -> is_printf tok = true ->
  match_ KEYWORD (Some "printf") p = (Some tok, advance p).
Proof.
  unfold is_printf, match_. intros -> H. rewrite H. reflexivity.
Qed.

Lemma printf_statement_progress p tok :
  current p = Some tok -> is_printf tok = true ->
  pos p < pos (printf_statement p).
Proof.
  intros C H. unfold printf_statement. rewrite (is_printf_match _ _ C H).
  destruct (match_ LPAREN None _) as [o1 p1] eqn:E1.
  pose proof (match_frame _ _ _ _ _ E1) as (_ & _ & _ & D1).
  destruct o1; [| simpl in *; lia].
  destruct (match_ STRING None p1) as [o2 p2] eqn:E2.
  pose proof (match_frame _ _ _ _ _ E2) as (_ & _ & _ & D2).
  destruct o2; [| simpl in *; lia].
  destruct (match_ RPAREN None p2) as [o3 p3] eqn:E3.
  pose proof (match_frame _ _ _ _ _ E3) as (_ & _ & _ & D3).
  destruct o3; [| simpl in *; lia].
  destruct (match_ DELIM None p3) as [o4 p4] eqn:E4.
  pose proof (match_frame _ _ _ _ _ E4) as (_ & _ & _ & D4).
  destruct o4; simpl in *; lia.
Qed.

(** ** The function definition *)

Lemma extends_remaining p p' : extends p p' -> remaining p' <= remaining p.
Proof. unfold remaining; intros (A & B & _). rewrite A. lia. Qed.

Lemma frame_extends p p' : frame p p' -> extends p p'.
Proof. intros (A & B & C & D). apply extends_same; auto. Qed.

Lemma function_body_extends n :
  forall p p', function_body n p = Some p' -> extends p p'.
Proof.
  induction n as [|n IH]; simpl; intros p p'; [discriminate|].
  destruct (current p) as [token|]; [| intros [= <-]; apply extends_refl].
  destruct (kind_eqb (type token) RBRACE); [intros [= <-]; apply extends_refl |].
  destruct (is_printf token).
  - intros H. eapply extends_trans; [apply printf_statement_extends | eauto].
  - destruct (statement n p) as [p1|] eqn:S; [|discriminate].
    intros H. eapply extends_trans; [eapply statement_extends | ]; eauto.
Qed.

Lemma function_body_mono n :
  forall m p r, n <= m -> function_body n p = Some r -> function_body m p = Some r.
Proof.
  induction n as [|n IH]; simpl; intros m p r Hm; [discriminate|].
  destruct m as [|m]; [lia|]. simpl.
  destruct (current p) as [token|]; auto.
  destruct (kind_eqb (type token) RBRACE); auto.
  destruct (is_printf token).
  - apply IH; lia.
  - destruct (statement n p) as [p1|] eqn:S; [|discriminate].
    rewrite (statement_mono n m p p1) by (auto; lia). apply IH; lia.
Qed.

Lemma function_body_enough n :
  forall p, 4 * remaining p + 4 <= n -> exists r, function_body n p = Some r.
Proof.
  induction n as [|n IH]; simpl; intros p Hn; [lia|].
  destruct (current p) as [token|] eqn:C; eauto.
  destruct (kind_eqb (type token) RBRACE); eauto.
  pose proof (current_Some_lt _ _ C) as L.
  destruct (is_printf token) eqn:P.
  - apply IH. pose proof (printf_statement_progress _ _ C P).
    destruct (printf_statement_extends p) as (A & _).
    unfold remaining in *. rewrite A. lia.
  - destruct (statement_enough n p ltac:(lia)) as (p1 & S). rewrite S.
    apply statement_progress in S. destruct S as (A & B).
    apply IH. unfold remaining in *. rewrite A. lia.
Qed.

Lemma function_definition_extends n p p' :
  function_definition n p = Some p' -> extends p p'.
Proof.
  unfold function_definition.
  destruct (match_ KEYWORD None p) as [o1 p1] eqn:E1.
  destruct (match_or KEYWORD None ID None p1) as [o2 p2] eqn:E2.
  destruct (match_ LPAREN None p2) as [o3 p3] eqn:E3.
  destruct (match_ RPAREN None p3) as [o4 p4] eqn:E4.
  destruct (match_ LBRACE None p4) as [o5 p5] eqn:E5.
  apply match_frame in E1, E3, E4, E5. apply match_or_frame in E2.
  assert (F : extends p p5).
  { apply frame_extends. eauto 6 using frame_trans. }
  destruct o5.
  - destruct (function_body n p5) as [p6|] eqn:B; [|discriminate].
    apply function_body_extends in B.
    destruct (match_ RBRACE None p6) as [o7 p7] eqn:E7.
    apply match_frame, frame_extends in E7.
    assert (extends p p7) by eauto using extends_trans.
    destruct o7; intros [= <-]; exact H.
  - intros [= <-]. exact F.
Qed.

Lemma function_definition_progress n p tok p' :
  current p = Some tok -> type tok = KEYWORD ->
  function_definition n p = Some p' -> pos p < pos p'.
Proof.
  intros C T. unfold function_definition.
  assert (E1 : match_ KEYWORD None p = (Some tok, advance p)).
  { unfold match_. rewrite C, T. reflexivity. }
  rewrite E1.
  destruct (match_or KEYWORD None ID None _) as [o2 p2] eqn:E2.
  destruct (match_ LPAREN None p2) as [o3 p3] eqn:E3.
  destruct (match_ RPAREN None p3) as [o4 p4] eqn:E4.
  destruct (match_ LBRACE None p4) as [o5 p5] eqn:E5.
  apply match_frame in E3, E4, E5. apply match_or_frame in E2.
  assert (F : frame (advance p) p5) by eauto 6 using frame_trans.
  destruct F as (_ & _ & _ & F). simpl in F.
  destruct o5.
  - destruct (function_body n p5) as [p6|] eqn:B; [|discriminate].
    apply function_body_extends in B. destruct B as (_ & B & _).
    destruct (match_ RBRACE None p6) as [o7 p7] eqn:E7.
    apply match_frame in E7. destruct E7 as (_ & _ & _ & E7).
    destruct o7; intros [= <-]; simpl; lia.
  - intros [= <-]. simpl. lia.
Qed.

Lemma function_definition_mono n m p r :
  n <= m -> function_definition n p = Some r -> function_definition m p = Some r.
Proof.
  intros Hm. unfold function_definition.
  destruct (match_ KEYWORD None p) as [o1 p1].
  destruct (match_or KEYWORD None ID None p1) as [o2 p2].
  destruct (match_ LPAREN None p2) as [o3 p3].
  destruct (match_ RPAREN None p3) as [o4 p4].
  destruct (match_ LBRACE None p4) as [[t5|] p5]; auto.
  destruct (function_body n p5) as [p6|] eqn:B; [|discriminate].
  rewrite (function_body_mono n m p5 p6 Hm B). auto.
Qed.

Lemma function_definition_enough n p :
  4 * remaining p + 4 <= n -> exists r, function_definition n p = Some r.
Proof.
  intros Hn. unfold function_definition.
  destruct (match_ KEYWORD None p) as [o1 p1] eqn:E1.
  destruct (match_or KEYWORD None ID None p1) as [o2 p2] eqn:E2.
  destruct (match_ LPAREN None p2) as [o3 p3] eqn:E3.
  destruct (match_ RPAREN None p3) as [o4 p4] eqn:E4.
  destruct (match_ LBRACE None p4) as [o5 p5] eqn:E5.
  apply match_frame in E1, E3, E4, E5. apply match_or_frame in E2.
  assert (F : frame p p5) by eauto 6 using frame_trans.
  apply frame_remaining in F.
  destruct o5; eauto.
  destruct (function_body_enough n p5 ltac:(lia)) as (p6 & B). rewrite B.
  destruct (match_ RBRACE None p6) as [[t7|] p7]; eauto.
Qed.

(** ** The driver loop *)

Lemma parse_step_extends n token p p' :
  current p = Some token -> parse_step n token p = Some p' ->
  extends p p' /\ pos p < pos p'.
Proof.
  intros C. unfold parse_step.
  destruct (kind_eqb (type token) INCLUDE).
  { intros [= <-]. split; [| simpl; lia].
    apply extends_append with (g := [Include (value token)]);
      simpl; auto using well_paired; lia. }
  destruct (kind_eqb (type token) KEYWORD) eqn:K.
  - unfold kind_eqb in K.
    destruct (kind_eq_dec (type token) KEYWORD) as [T|]; [clear K | discriminate].
    destruct (lookahead_is_function p).
    + intros H. split.
      * eapply function_definition_extends; eauto.
      * eapply function_definition_progress; eauto.
    + destruct (String.eqb (value token) "printf") eqn:V.
      * intros [= <-]. split; [apply printf_statement_extends |].
        apply printf_statement_progress with token; auto.
        unfold is_printf, kind_eqb. rewrite V.
        destruct (kind_eq_dec (type token) KEYWORD); auto.
      * intros H. split; [eapply statement_extends; eauto |].
        eapply statement_progress; eauto.
  - intros H. split; [eapply statement_extends; eauto |].
    eapply statement_progress; eauto.
Qed.

Lemma parse_step_mono n m token p r :
  n <= m -> parse_step n token p = Some r -> parse_step m token p = Some r.
Proof.
  intros Hm. unfold parse_step.
  destruct (kind_eqb (type token) INCLUDE); auto.
  destruct (kind_eqb (type token) KEYWORD);
    [destruct (lookahead_is_function p);
       [| destruct (String.eqb (value token) "printf")] |];
    auto; first [apply function_definition_mono | apply statement_mono]; auto.
Qed.

Lemma parse_step_enough n token p :
  4 * remaining p + 4 <= n -> exists r, parse_step n token p = Some r.
Proof.
  intros Hn. unfold parse_step.
  destruct (kind_eqb (type token) INCLUDE); eauto.
  destruct (kind_eqb (type token) KEYWORD);
    [destruct (lookahead_is_function p);
       [| destruct (String.eqb (value token) "printf")] |];
    eauto using function_definition_enough; apply statement_enough; lia.
Qed.

Lemma parse_loop_extends n :
  forall p p', parse_loop n p = Some p' -> extends p p'.
Proof.
  induction n as [|n IH]; simpl; intros p p'; [discriminate|].
  destruct (Nat.ltb (pos p) (List.length (tokens p)));
    [| intros [= <-]; apply extends_refl].
  destruct (current p) as [token|] eqn:C; [| intros [= <-]; apply extends_refl].
  destruct (parse_step n token p) as [p1|] eqn:S; [|discriminate].
  apply parse_step_extends in S; auto. destruct S as (S & _).
  intros H. eapply extends_trans; eauto.
Qed.

Lemma parse_loop_mono n :
  forall m p r, n <= m -> parse_loop n p = Some r -> parse_loop m p = Some r.
Proof.
  induction n as [|n IH]; simpl; intros m p r Hm; [discriminate|].
  destruct m as [|m]; [lia|]. simpl.
  destruct (Nat.ltb (pos p) (List.length (tokens p))); auto.
  destruct (current p) as [token|]; auto.
  destruct (parse_step n token p) as [p1|] eqn:S; [|discriminate].
  rewrite (parse_step_mono n m token p p1) by (auto; lia). apply IH; lia.
Qed.

Lemma parse_loop_enough n :
  forall p, 4 * remaining p + 5 <= n -> exists r, parse_loop n p = Some r.
Proof.
  induction n as [|n IH]; simpl; intros p Hn; [lia|].
  destruct (Nat.ltb (pos p) (List.length (tokens p))); eauto.
  destruct (current p) as [token|] eqn:C; eauto.
  destruct (parse_step_enough n token p ltac:(lia)) as (p1 & S). rewrite S.
  apply parse_step_extends in S; auto. destruct S as ((A & _) & B).
  pose proof (current_Some_lt _ _ C).
  apply IH. unfold remaining in *. rewrite A. lia.
Qed.

(** [parse] returns: the budget is never exhausted, and a larger one gives
    the same tree and the same diagnostics. *)
Lemma parse_with_total toks :
  exists r, forall fuel, budget toks <= fuel -> parse_with fuel toks = Some r.
Proof.
  unfold parse_with, budget.
  destruct (parse_loop_enough (4 * List.length toks + 5) (init toks)) as (p & P).
  { unfold remaining; simpl. lia. }
  exists (ast p, errors p). intros fuel Hf.
  rewrite (parse_loop_mono _ fuel _ _ Hf P). reflexivity.
Qed.

Lemma parse_total toks : exists r, parse toks = Some r.
Proof.
  destruct (parse_with_total toks) as (r & H). exists r. apply H. auto.
Qed.

Lemma parse_well_paired toks a errs : parse toks = Some (a, errs) -> well_paired a.
Proof.
  unfold parse, parse_with.
  destruct (parse_loop (budget toks) (init toks)) as [p|] eqn:P; [|discriminate].
  intros [= <- <-]. apply parse_loop_extends in P.
  destruct P as (_ & _ & g & -> & W). exact W.
Qed.

End ParserFrames.

(** * Properties of the semantic analyzer *)

Section AnalyzerFacts.

Import SemanticAnalyzer.

Lemma redeclared_not_undeclared n m : redeclared n <> undeclared m.
Proof. unfold redeclared, undeclared. simpl. intros H. discriminate H. Qed.

Lemma declare_symbols name a : set_mem string_dec name (symbols (declare name a)) = true.
Proof.
  unfold declare. destruct (set_mem string_dec name (symbols a)) eqn:M; simpl; auto.
  apply set_mem_correct2. apply set_add_intro2. reflexivity.
Qed.

Lemma declare_errors name a m :
  In (undeclared m) (errors (declare name a)) -> In (undeclared m) (errors a).
Proof.
  unfold declare. destruct (set_mem string_dec name (symbols a)); simpl; auto.
  rewrite in_app_iff. simpl. intros [H | [H | []]]; auto.
  exfalso. exact (redeclared_not_undeclared _ _ H).
Qed.

(** On well-paired statements the pass adds no diagnostic of an undeclared
    variable to those it started with. *)
Lemma run_well_paired g :
  Parser.well_paired g ->
  forall a m, In (undeclared m) (errors (run g a)) -> In (undeclared m) (errors a).
Proof.
  unfold run. induction 1; simpl; intros a m; auto.
  - intros H'. apply IHwell_paired in H'. eauto using declare_errors.
  - intros H'. apply IHwell_paired in H'. eauto using declare_errors.
  - rewrite declare_symbols.
    intros H'. apply IHwell_paired in H'. eauto using declare_errors.
  - rewrite declare_symbols.
    intros H'. apply IHwell_paired in H'. eauto using declare_errors.
Qed.

End AnalyzerFacts.

(** * Properties of the code generator *)

Section GeneratorFacts.

Import ICG.

Lemma to_uint_nonnil n : Nat.to_uint n <> Decimal.Nil.
Proof.
  rewrite <- (DecimalNat.Unsigned.of_to n) at 1.
  rewrite DecimalNat.Unsigned.to_of. apply DecimalFacts.unorm_nonnil.
Qed.

Lemma str_int_inj i j : str_int i = str_int j -> i = j.
Proof.
  unfold str_int. intros H.
  apply DecimalNat.Unsigned.to_uint_inj.
  pose proof (NilZero.usu _ (to_uint_nonnil i)) as Hi.
  pose proof (NilZero.usu _ (to_uint_nonnil j)) as Hj.
  rewrite H in Hi. congruence.
Qed.

(** Two temporaries of the same name have the same number. *)
Lemma temp_name_inj i j : temp_name i = temp_name j -> i = j.
Proof. unfold temp_name. simpl. intros [= H]. apply str_int_inj, H. Qed.

(** Lowering an expression allocates the temporaries that follow the
    counter, one after the other, and leaves the counter at the last one. *)
Lemma handle_expr_temps_seq node :
  forall g,
    temp_count g <= temp_count (snd (handle_expr node g))
    /\ handle_expr_temps node g =
       map temp_name
         (seq (temp_count g + 1)
              (temp_count (snd (handle_expr node g)) - temp_count g)).
Proof.
  induction node as [| v | op l IHl r IHr]; intros g; simpl.
  - rewrite Nat.sub_diag. auto.
  - rewrite Nat.sub_diag. auto.
  - destruct (IHl g) as (Ll & El). rewrite El.
    destruct (handle_expr l g) as [[vl | e] g1]; simpl in *.
    + destruct (IHr g1) as (Lr & Er). rewrite Er.
      destruct (handle_expr r g1) as [[vr | e] g2]; simpl in *.
      * split; [lia |].
        change [temp_name (temp_count g2 + 1)]
          with (map temp_name [temp_count g2 + 1]).
        rewrite <- !map_app. f_equal.
        replace (temp_count g2 + 1 - temp_count g)
          with ((temp_count g1 - temp_count g)
                + ((temp_count g2 - temp_count g1) + 1)) by lia.
        rewrite !seq_app. simpl.
        replace (temp_count g + 1 + (temp_count g1 - temp_count g))
          with (temp_count g1 + 1) by lia.
        replace (temp_count g1 + 1 + (temp_count g2 - temp_count g1))
          with (temp_count g2 + 1) by lia.
        reflexivity.
      * split; [lia |]. rewrite app_nil_r, <- map_app. f_equal.
        replace (temp_count g2 - temp_count g)
          with ((temp_count g1 - temp_count g)
                + (temp_count g2 - temp_count g1)) by lia.
        rewrite seq_app.
        replace (temp_count g + 1 + (temp_count g1 - temp_count g))
          with (temp_count g1 + 1) by lia.
        reflexivity.
    + split; [lia |]. rewrite app_nil_r. reflexivity.
Qed.

Lemma visit_temps_seq s g :
  temp_count g <= temp_count (snd (visit s g))
  /\ visit_temps s g =
     map temp_name
       (seq (temp_count g + 1) (temp_count (snd (visit s g)) - temp_count g)).
Proof.
  destruct s; simpl; try (rewrite Nat.sub_diag; auto).
  destruct (handle_expr_temps_seq e g) as (L & E). rewrite E.
  destruct (handle_expr e g) as [[v | ex] g1]; simpl in *; auto.
Qed.

Lemma run_temps_seq ast :
  forall g,
    temp_count g <= temp_count (snd (run ast g))
    /\ run_temps ast g =
       map temp_name
         (seq (temp_count g + 1) (temp_count (snd (run ast g)) - temp_count g)).
Proof.
  induction ast as [| s rest IH]; intros g; simpl.
  - rewrite Nat.sub_diag. auto.
  - destruct (visit_temps_seq s g) as (L & E). rewrite E.
    destruct (visit s g) as [[u | ex] g1]; simpl in *.
    + destruct (IH g1) as (L' & E'). rewrite E'. split; [lia |].
      rewrite <- map_app. f_equal.
      replace (temp_count (snd (run rest g1)) - temp_count g)
        with ((temp_count g1 - temp_count g)
              + (temp_count (snd (run rest g1)) - temp_count g1)) by lia.
      rewrite seq_app.
      replace (temp_count g + 1 + (temp_count g1 - temp_count g))
        with (temp_count g1 + 1) by lia.
      reflexivity.
    + split; [lia |]. rewrite app_nil_r. reflexivity.
Qed.

Lemma definitions_app ns1 rs1 ns2 rs2 :
  List.length rs1 = List.length ns1 ->
  definitions (ns1 ++ ns2) (rs1 ++ rs2) =
  definitions ns1 rs1 ++ definitions ns2 rs2.
Proof.
  revert rs1. induction ns1 as [| n ns1 IH]; intros [| r rs1] L;
    simpl in *; try discriminate; [reflexivity |].
  rewrite IH by lia. reflexivity.
Qed.

(** The lines that lowering an expression appends are the definitions of
    the temporaries it allocates, in the order of the allocations. *)
Lemma handle_expr_definitions node :
  forall g,
  exists rhss,
    List.length rhss = List.length (handle_expr_temps node g)
    /\ code (snd (handle_expr node g)) =
       code g ++ definitions (handle_expr_temps node g) rhss.
Proof.
  induction node as [| v | op l IHl r IHr]; intros g.
  - exists []. simpl. rewrite app_nil_r. auto.
  - exists []. simpl. rewrite app_nil_r. auto.
  - destruct (IHl g) as (r1 & L1 & C1). simpl.
    destruct (handle_expr l g) as [[vl | e] g1]; simpl in *.
    + destruct (IHr g1) as (r2 & L2 & C2).
      destruct (handle_expr r g1) as [[vr | e] g2]; simpl in *.
      * exists (r1 ++ r2 ++ [(vl ++ " " ++ op ++ " " ++ vr)%string]).
        split; [rewrite !length_app; simpl; lia |].
        rewrite !definitions_app by assumption.
        rewrite C2, C1, <- !app_assoc. reflexivity.
      * exists (r1 ++ r2). split; [rewrite !length_app; simpl; lia |].
        rewrite app_nil_r, definitions_app by assumption.
        rewrite C2, C1, <- !app_assoc. reflexivity.
    + exists r1. rewrite app_nil_r. auto.
Qed.

(** What lowering an operator node returns is the temporary it allocated
    last, and the line it appended last defines that temporary. *)
Lemma handle_expr_returned op l r g v :
  fst (handle_expr (BinOp op l r) g) = Returned v ->
  v = temp_name (temp_count (snd (handle_expr (BinOp op l r) g)))
  /\ temp_count g < temp_count (snd (handle_expr (BinOp op l r) g))
  /\ last (handle_expr_temps (BinOp op l r) g) EmptyString = v
  /\ exists rhs,
       last (code (snd (handle_expr (BinOp op l r) g))) EmptyString =
       (v ++ " = " ++ rhs)%string.
Proof.
  simpl.
  pose proof (handle_expr_temps_seq l g) as (Ll & _).
  destruct (handle_expr l g) as [[vl | e] g1]; simpl in *; [| discriminate].
  pose proof (handle_expr_temps_seq r g1) as (Lr & _).
  destruct (handle_expr r g1) as [[vr | e] g2]; simpl in *; [| discriminate].
  intros [= <-]. split; [reflexivity |]. split; [lia |]. split.
  - rewrite !app_assoc. apply last_last.
  - exists (vl ++ " " ++ op ++ " " ++ vr)%string. apply last_last.
Qed.

(** The counter moves only while an expression is lowered. *)
Lemma visit_temp_count s g :
  temp_count (snd (visit s g)) =
  match s with
  | AssignExpr _ _ e => temp_count (snd (handle_expr e g))
  | _ => temp_count g
  end.
Proof.
  destruct s as [text | typ name | typ name size | typ name e | sv]; simpl;
    try reflexivity.
  destruct (handle_expr e g) as [[v | ex] g1]; reflexivity.
Qed.

(** A statement appends the definitions of the temporaries it allocates
    and, after them, at most one line of its own. *)
Lemma visit_definitions s g :
  exists rhss own,
    List.length rhss = List.length (visit_temps s g)
    /\ List.length own <= 1
    /\ code (snd (visit s g)) =
       code g ++ definitions (visit_temps s g) rhss ++ own.
Proof.
  destruct s as [text | typ name | typ name size | typ name e | sv]; simpl;
    try (eexists [], [_]; simpl; repeat split; auto; fail).
  destruct (handle_expr_definitions e g) as (rhss & L & C).
  destruct (handle_expr e g) as [[v | ex] g1]; simpl in *.
  - exists rhss, [(name ++ " = " ++ v)%string]. rewrite C, <- app_assoc. auto.
  - exists rhss, []. rewrite app_nil_r. auto.
Qed.

(** A run keeps the lines that the instance held before it. *)
Lemma run_keeps_code ast :
  forall g, exists more, code (snd (run ast g)) = code g ++ more.
Proof.
  induction ast as [| s rest IH]; intros g; simpl.
  - exists []. rewrite app_nil_r. reflexivity.
  - destruct (visit_definitions s g) as (rhss & own & _ & _ & C).
    destruct (visit s g) as [[u | ex] g1]; simpl in C.
    + destruct (IH g1) as (more & M). rewrite M, C, <- app_assoc. eauto.
    + simpl. eauto.
Qed.

End GeneratorFacts.

(** * Properties of the lexer *)

Section LexerFacts.

Import Lexer.

Lemma span_sound f s a b : span f s = (a, b) -> s = a ++ b.
Proof.
  revert a b. induction s as [| c s IH]; simpl; intros a b.
  - intros [= <- <-]. reflexivity.
  - destruct (f c).
    + destruct (span f s) as [a' b']. intros [= <- <-].
      simpl. f_equal. apply IH. reflexivity.
    + intros [= <- <-]. reflexivity.
Qed.

Lemma strip_prefix_sound lit : forall s r, strip_prefix lit s = Some r -> s = lit ++ r.
Proof.
  induction lit as [| a lit IH]; simpl; intros s r.
  - intros [= <-]. reflexivity.
  - destruct s as [| c s]; [discriminate|].
    destruct (Ascii.eqb_spec a c) as [<- |]; [|discriminate].
    intros H. f_equal. apply IH, H.
Qed.

Lemma rINCLUDE_sound : sound rINCLUDE.
Proof.
  intros prev s lexeme rest. unfold rINCLUDE.
  destruct s as [| c s1]; [discriminate|].
  destruct (Ascii.eqb c "#"); [|discriminate].
  destruct (span is_space s1) as [ws1 s2] eqn:S1. apply span_sound in S1.
  destruct (strip_prefix _ s2) as [s3|] eqn:P; [|discriminate].
  apply strip_prefix_sound in P.
  destruct (span is_space s3) as [ws2 s4] eqn:S2. apply span_sound in S2.
  destruct s4 as [| c4 s5]; [discriminate|].
  destruct (Ascii.eqb c4 "<"); [|discriminate].
  destruct (span not_gt s5) as [body s6] eqn:S3. apply span_sound in S3.
  destruct body as [| b0 body]; [discriminate|].
  destruct s6 as [| c6 s7]; [discriminate|].
  destruct (Ascii.eqb c6 ">"); [|discriminate].
  intros [= <- <-]. subst. simpl.
  repeat (rewrite <- app_assoc; simpl). reflexivity.
Qed.

Lemma first_keyword_sound s ks lexeme rest :
  first_keyword s ks = Some (lexeme, rest) -> s = lexeme ++ rest.
Proof.
  induction ks as [| k ks IH]; simpl; [discriminate|].
  unfold keyword_at.
  destruct (strip_prefix (list_ascii_of_string k) s) as [r|] eqn:P; auto.
  destruct (word_boundary _ _); auto.
  intros [= <- <-]. apply strip_prefix_sound, P.
Qed.

Lemma rKEYWORD_sound : sound rKEYWORD.
Proof.
  intros prev s lexeme rest. unfold rKEYWORD.
  destruct (word_boundary _ _); [apply first_keyword_sound | discriminate].
Qed.

Lemma rID_sound : sound rID.
Proof.
  intros prev s lexeme rest. unfold rID.
  destruct (word_boundary prev _); [|discriminate].
  destruct s as [| c s1]; [discriminate|].
  destruct (is_id_start c); [|discriminate].
  destruct (span is_word s1) as [ws r] eqn:S. apply span_sound in S.
  destruct (word_boundary _ _); [|discriminate].
  intros [= <- <-]. subst. reflexivity.
Qed.

Lemma rNUM_sound : sound rNUM.
Proof.
  intros prev s lexeme rest. unfold rNUM.
  destruct (word_boundary prev _); [|discriminate].
  destruct (span is_digit s) as [ds r1] eqn:S. apply span_sound in S.
  destruct ds as [| d ds]; [discriminate|].
  assert (W : (if word_boundary (last_char (d :: ds)) (hd_error r1)
               then Some (d :: ds, r1) else None) = Some (lexeme, rest) ->
              s = lexeme ++ rest).
  { destruct (word_boundary _ _); [|discriminate]. intros [= <- <-]. exact S. }
  cbv zeta.
  destruct r1 as [| c r2]; auto.
  destruct (Ascii.eqb c "."); auto.
  destruct (span is_digit r2) as [fs r3] eqn:S2. apply span_sound in S2.
  destruct fs as [| f fs]; auto.
  destruct (word_boundary (last_char (f :: fs)) _); auto.
  intros [= <- <-]. subst. simpl. rewrite <- app_assoc. reflexivity.
Qed.

Lemma rSTRING_sound : sound rSTRING.
Proof.
  intros prev s lexeme rest. unfold rSTRING.
  destruct s as [| c s1]; [discriminate|].
  destruct (Ascii.eqb c "034"); [|discriminate].
  destruct (span is_string_body s1) as [body r] eqn:S. apply span_sound in S.
  destruct r as [| q r]; [discriminate|].
  destruct (Ascii.eqb q "034"); [|discriminate].
  intros [= <- <-]. subst. simpl. rewrite <- app_assoc. reflexivity.
Qed.

Lemma one_of_sound f : sound (one_of f).
Proof.
  intros prev s lexeme rest. unfold one_of.
  destruct s as [| c s1]; [discriminate|].
  destruct (f c); [|discriminate]. intros [= <- <-]. reflexivity.
Qed.

Lemma rSKIP_sound : sound rSKIP.
Proof.
  intros prev s lexeme rest. unfold rSKIP.
  destruct (span is_skip s) as [ws r] eqn:S. apply span_sound in S.
  destruct ws; [discriminate|]. intros [= <- <-]. exact S.
Qed.

Lemma first_match_sound rules :
  Forall (fun nr => sound (snd nr)) rules ->
  forall prev s name lexeme rest,
    first_match rules prev s = Some (name, lexeme, rest) -> s = lexeme ++ rest.
Proof.
  induction 1 as [| [n r] rules Hr _ IH]; simpl; intros prev s name lexeme rest;
    [discriminate|].
  destruct (r prev s) as [[l t]|] eqn:R; [| apply IH].
  intros [= <- <- <-]. apply (Hr _ _ _ _ R).
Qed.

Lemma token_spec_sound : Forall (fun nr => sound (snd nr)) token_spec.
Proof.
  unfold token_spec.
  repeat constructor; simpl;
    auto using rINCLUDE_sound, rKEYWORD_sound, rID_sound, rNUM_sound,
      rSTRING_sound, one_of_sound, rSKIP_sound.
Qed.

(** Every character is matched by some rule: the newline by [SKIP] at the
    latest, any other by [MISMATCH]. *)
Lemma first_match_None rules prev s :
  first_match rules prev s = None ->
  forall n r, In (n, r) rules -> r prev s = None.
Proof.
  induction rules as [| [n0 r0] rules IH]; simpl; [tauto|].
  destruct (r0 prev s) as [[l t]|] eqn:R; [discriminate|].
  intros H n r [[= <- <-] | I]; eauto.
Qed.

Lemma first_match_Some prev c s : first_match token_spec prev (c :: s) <> None.
Proof.
  intros H.
  pose proof (first_match_None _ _ _ H SKIP rSKIP) as S.
  pose proof (first_match_None _ _ _ H MISMATCH (one_of not_newline)) as M.
  unfold token_spec in S, M. simpl in S, M.
  specialize (S ltac:(tauto)). specialize (M ltac:(tauto)). clear H.
  unfold rSKIP, one_of, not_newline, is_skip in S, M. simpl in S, M.
  destruct (Ascii.eqb c "010") eqn:E; simpl in M; try discriminate.
  rewrite orb_true_r in S. destruct (span _ s); discriminate.
Qed.

End LexerFacts.

(** ** The walk and the jump *)

Section Jump.

Import Lexer.

Lemma last_cons_default (c d e : ascii) l : last (c :: l) d = last (c :: l) e.
Proof.
  revert c. induction l as [| a l IH]; intros c; [reflexivity |].
  change (last (a :: l) d = last (a :: l) e). apply IH.
Qed.

(** Passing over the characters of a match leaves the scan after it, with
    the last character of the match before the position. *)
Lemma scan_pass lexeme rest :
  forall prev,
    scan prev (List.length lexeme) (lexeme ++ rest) =
    scan (match last_char lexeme with Some c => Some c | None => prev end) 0 rest.
Proof.
  induction lexeme as [| c l IH]; intros prev; [reflexivity |].
  change (scan (Some c) (List.length l) (l ++ rest) =
          scan (Some (last (c :: l) c)) 0 rest).
  rewrite IH. destruct l as [| a l]; [reflexivity |].
  cbn [last_char]. do 2 f_equal.
  change (last (c :: a :: l) c) with (last (a :: l) c).
  apply last_cons_default.
Qed.

(** The loop as [finditer] runs it: the match at the position is handled
    and the scan goes on right after it. *)
Lemma scan_jump prev c l rest name :
  first_match token_spec prev (c :: l ++ rest) = Some (name, c :: l, rest) ->
  scan prev 0 (c :: l ++ rest) =
  match name with
  | SKIP => scan (last_char (c :: l)) 0 rest
  | MISMATCH => Raised (unexpected (c :: l))
  | _ =>
      match scan (last_char (c :: l)) 0 rest with
      | Returned tokens =>
          Returned (mkToken name (string_of_list_ascii (c :: l)) :: tokens)
      | Raised e => Raised e
      end
  end.
Proof.
  intros F. cbn [scan]. rewrite F. cbn [List.length pred].
  rewrite scan_pass.
  replace (match last_char l with Some c0 => Some c0 | None => Some c end)
    with (last_char (c :: l)).
  - destruct name; reflexivity.
  - destruct l as [| a l]; [reflexivity |]. cbn [last_char]. f_equal.
    change (last (c :: a :: l) c) with (last (a :: l) c).
    apply last_cons_default.
Qed.

End Jump.

(** ** A text continued by [@] *)

Section Continued.

Import Lexer.

Variable tail : list ascii.

(** The continuation: the character [@] and any text. *)
Let x : list ascii := "@"%char :: tail.

Lemma span_continued f p a b :
  span f p = (a, b) -> b <> [] \/ f "@"%char = false ->
  span f (p ++ x) = (a, b ++ x).
Proof.
  revert a b. induction p as [| c p IH]; simpl; intros a b.
  - intros [= <- <-] [N | N]; [congruence|]. rewrite N. reflexivity.
  - destruct (f c).
    + destruct (span f p) as [a' b'] eqn:S. intros [= <- <-] N.
      rewrite (IH _ _ eq_refl N). reflexivity.
    + intros [= <- <-] _. reflexivity.
Qed.

Lemma strip_prefix_continued lit :
  ~ In "@"%char lit ->
  forall p, strip_prefix lit (p ++ x) =
            option_map (fun r => r ++ x) (strip_prefix lit p).
Proof.
  induction lit as [| a lit IH]; simpl; intros N p; auto.
  destruct p as [| c p]; simpl.
  - destruct (Ascii.eqb_spec a "@"); [tauto | reflexivity].
  - destruct (Ascii.eqb a c); auto.
Qed.

Lemma boundary_continued a b :
  word_boundary a (hd_error (b ++ x)) = word_boundary a (hd_error b).
Proof. destruct b; reflexivity. Qed.

Lemma keyword_at_continued p k :
  ~ In "@"%char (list_ascii_of_string k) ->
  keyword_at (p ++ x) k = continued x (keyword_at p k).
Proof.
  intros N. unfold keyword_at. rewrite (strip_prefix_continued _ N).
  destruct (strip_prefix (list_ascii_of_string k) p) as [r|]; simpl; auto.
  rewrite boundary_continued. destruct (word_boundary _ _); reflexivity.
Qed.

Lemma first_keyword_continued p ks :
  Forall (fun k => ~ In "@"%char (list_ascii_of_string k)) ks ->
  first_keyword (p ++ x) ks = continued x (first_keyword p ks).
Proof.
  induction 1 as [| k ks N _ IH]; simpl; auto.
  rewrite (keyword_at_continued _ _ N).
  destruct (keyword_at p k) as [[l r]|]; simpl; auto.
Qed.

Lemma keywords_plain :
  Forall (fun k => ~ In "@"%char (list_ascii_of_string k)) keywords.
Proof.
  unfold keywords. repeat constructor; simpl;
    intros H; repeat (destruct H as [H | H]; [discriminate H |]); exact H.
Qed.

Lemma rKEYWORD_continued prev p :
  rKEYWORD prev (p ++ x) = continued x (rKEYWORD prev p).
Proof.
  unfold rKEYWORD. rewrite boundary_continued.
  destruct (word_boundary _ _); auto.
  apply first_keyword_continued, keywords_plain.
Qed.

Lemma rID_continued prev p : rID prev (p ++ x) = continued x (rID prev p).
Proof.
  unfold rID. rewrite boundary_continued.
  destruct (word_boundary prev _); auto.
  destruct p as [| c p]; simpl; auto.
  destruct (is_id_start c); auto.
  destruct (span is_word p) as [ws r] eqn:S.
  rewrite (span_continued _ _ _ _ S) by (right; reflexivity).
  rewrite boundary_continued. destruct (word_boundary _ _); reflexivity.
Qed.

Lemma rNUM_continued prev p : rNUM prev (p ++ x) = continued x (rNUM prev p).
Proof.
  unfold rNUM. rewrite boundary_continued.
  destruct (word_boundary prev _); auto.
  destruct (span is_digit p) as [ds r1] eqn:S.
  rewrite (span_continued _ _ _ _ S) by (right; reflexivity).
  destruct ds as [| d ds]; auto. cbv zeta.
  rewrite boundary_continued.
  destruct r1 as [| c r2]; simpl.
  - destruct (word_boundary _ _); reflexivity.
  - destruct (Ascii.eqb c ".").
    + destruct (span is_digit r2) as [fs r3] eqn:S2.
      rewrite (span_continued _ _ _ _ S2) by (right; reflexivity).
      destruct fs as [| f fs].
      * destruct (word_boundary _ _); reflexivity.
      * rewrite boundary_continued.
        destruct (word_boundary (last_char (f :: fs)) _); auto.
        destruct (word_boundary _ _); reflexivity.
    + destruct (word_boundary _ _); reflexivity.
Qed.

Lemma one_of_continued f prev c p :
  one_of f prev ((c :: p) ++ x) = continued x (one_of f prev (c :: p)).
Proof. simpl. destruct (f c); reflexivity. Qed.

Lemma rSKIP_continued prev p : rSKIP prev (p ++ x) = continued x (rSKIP prev p).
Proof.
  unfold rSKIP. destruct (span is_skip p) as [ws r] eqn:S.
  rewrite (span_continued _ _ _ _ S) by (right; reflexivity).
  destruct ws; reflexivity.
Qed.

(** An include or a string that is closed in the text is not changed by
    the continuation. *)
Lemma rINCLUDE_continued prev p lexeme rest :
  rINCLUDE prev p = Some (lexeme, rest) ->
  rINCLUDE prev (p ++ x) = Some (lexeme, rest ++ x).
Proof.
  unfold rINCLUDE. destruct p as [| c s1]; [discriminate|].
  rewrite <- app_comm_cons.
  destruct (Ascii.eqb c "#"); [|discriminate].
  destruct (span is_space s1) as [ws1 s2] eqn:S1.
  rewrite (span_continued _ _ _ _ S1) by (right; reflexivity).
  rewrite strip_prefix_continued
    by (simpl; intros H; repeat (destruct H as [H | H]; [discriminate H |]); exact H).
  destruct (strip_prefix _ s2) as [s3|]; [|discriminate]. cbn [option_map].
  destruct (span is_space s3) as [ws2 s4] eqn:S2.
  rewrite (span_continued _ _ _ _ S2) by (right; reflexivity).
  destruct s4 as [| c4 s5]; [discriminate|]. rewrite <- app_comm_cons.
  destruct (Ascii.eqb c4 "<"); [|discriminate].
  destruct (span not_gt s5) as [body s6] eqn:S3.
  destruct body as [| b0 body]; [discriminate|].
  destruct s6 as [| c6 s7]; [discriminate|].
  rewrite (span_continued _ _ _ _ S3) by (left; discriminate).
  change ((c6 :: s7) ++ x) with (c6 :: (s7 ++ x)). cbv iota beta.
  destruct (Ascii.eqb c6 ">"); [|discriminate].
  intros [= <- <-]. reflexivity.
Qed.

Lemma rSTRING_continued prev p lexeme rest :
  rSTRING prev p = Some (lexeme, rest) ->
  rSTRING prev (p ++ x) = Some (lexeme, rest ++ x).
Proof.
  unfold rSTRING. destruct p as [| c s1]; [discriminate|].
  rewrite <- app_comm_cons.
  destruct (Ascii.eqb c "034"); [|discriminate].
  destruct (span is_string_body s1) as [body r] eqn:S.
  destruct r as [| q r]; [discriminate|].
  rewrite (span_continued _ _ _ _ S) by (left; discriminate).
  change ((q :: r) ++ x) with (q :: (r ++ x)). cbv iota beta.
  destruct (Ascii.eqb q "034"); [|discriminate].
  intros [= <- <-]. reflexivity.
Qed.

(** At [#] only the include rule and the catch-all can match, at a quote
    only the string rule and the catch-all. *)
Lemma first_match_hash prev p :
  first_match token_spec prev ("#"%char :: p) =
  match rINCLUDE prev ("#"%char :: p) with
  | Some (l, r) => Some (INCLUDE, l, r)
  | None => Some (MISMATCH, ["#"%char], p)
  end.
Proof.
  unfold token_spec; cbn [first_match].
  destruct (rINCLUDE prev _) as [[l r]|]; auto.
  unfold rKEYWORD, rID, rNUM.
  destruct (word_boundary prev _); reflexivity.
Qed.

Lemma first_match_quote prev p :
  first_match token_spec prev ("034"%char :: p) =
  match rSTRING prev ("034"%char :: p) with
  | Some (l, r) => Some (STRING, l, r)
  | None => Some (MISMATCH, ["034"%char], p)
  end.
Proof.
  unfold token_spec; cbn [first_match].
  replace (rINCLUDE prev ("034"%char :: p)) with (@None (list ascii * list ascii))
    by reflexivity.
  unfold rKEYWORD, rID, rNUM.
  destruct (word_boundary prev _);
    cbn [first_keyword keywords keyword_at strip_prefix list_ascii_of_string
         Ascii.eqb Bool.eqb is_id_start is_digit span];
    destruct (rSTRING prev _) as [[l r]|]; reflexivity.
Qed.

(** The match found at a position of the text is found again when the text
    is continued, unless it is the catch-all. *)
Lemma first_match_continued prev c p name lexeme rest :
  first_match token_spec prev (c :: p) = Some (name, lexeme, rest) ->
  name <> MISMATCH ->
  first_match token_spec prev ((c :: p) ++ x) = Some (name, lexeme, rest ++ x).
Proof.
  destruct (Ascii.eqb_spec c "#") as [-> | Nh].
  { rewrite <- app_comm_cons, !first_match_hash.
    destruct (rINCLUDE prev ("#"%char :: p)) as [[l r]|] eqn:R.
    - intros [= <- <- <-] _. change ("#"%char :: p ++ x) with (("#"%char :: p) ++ x).
      rewrite (rINCLUDE_continued _ _ _ _ R). reflexivity.
    - intros [= <- <- <-] N. congruence. }
  destruct (Ascii.eqb_spec c "034") as [-> | Nq].
  { rewrite <- app_comm_cons, !first_match_quote.
    destruct (rSTRING prev ("034"%char :: p)) as [[l r]|] eqn:R.
    - intros [= <- <- <-] _. change ("034"%char :: p ++ x) with (("034"%char :: p) ++ x).
      rewrite (rSTRING_continued _ _ _ _ R). reflexivity.
    - intros [= <- <- <-] N. congruence. }
  apply Ascii.eqb_neq in Nh, Nq.
  unfold token_spec; cbn [first_match].
  rewrite rKEYWORD_continued, rID_continued, rNUM_continued, rSKIP_continued,
    !one_of_continued.
  replace (rINCLUDE prev (c :: p)) with (@None (list ascii * list ascii))
    by (unfold rINCLUDE; rewrite Nh; reflexivity).
  replace (rINCLUDE prev ((c :: p) ++ x)) with (@None (list ascii * list ascii))
    by (unfold rINCLUDE; rewrite <- app_comm_cons, Nh; reflexivity).
  replace (rSTRING prev (c :: p)) with (@None (list ascii * list ascii))
    by (unfold rSTRING; rewrite Nq; reflexivity).
  replace (rSTRING prev ((c :: p) ++ x)) with (@None (list ascii * list ascii))
    by (unfold rSTRING; rewrite <- app_comm_cons, Nq; reflexivity).
  repeat match goal with
         | |- context [continued x ?m] =>
             destruct m as [[? ?]|]; cbn [continued];
             [intros [= <- <- <-] _; reflexivity |]
         end.
  discriminate.
Qed.

Lemma first_match_at prev :
  first_match token_spec prev x = Some (MISMATCH, ["@"%char], tail).
Proof.
  unfold token_spec, x; cbn [first_match]. unfold rKEYWORD, rID, rNUM.
  destruct (word_boundary prev _); reflexivity.
Qed.

(** A scan that returns on the text raises at the [@] that follows it. *)
Lemma scan_continued p :
  forall prev k toks,
    k <= List.length p -> scan prev k p = Returned toks ->
    scan prev k (p ++ x) = Raised (unexpected ["@"%char]).
Proof.
  induction p as [| c p IH]; intros prev k toks Hk.
  - simpl in Hk. replace k with 0 by lia. intros _.
    change ([] ++ x) with x. unfold x at 1. cbn [scan].
    fold x. rewrite first_match_at. reflexivity.
  - rewrite <- app_comm_cons. destruct k as [| k]; cbn [scan].
    + destruct (first_match token_spec prev (c :: p)) as [[[name lexeme] rest]|] eqn:F.
      2:{ exfalso. exact (first_match_Some _ _ _ F). }
      pose proof (first_match_sound _ token_spec_sound _ _ _ _ _ F) as Sd.
      assert (L : pred (List.length lexeme) <= List.length p).
      { apply (f_equal (@List.length ascii)) in Sd.
        rewrite length_app in Sd. simpl in Sd. lia. }
      intros H.
      assert (N : name <> MISMATCH) by (intros ->; discriminate H).
      change (c :: p ++ x) with ((c :: p) ++ x).
      rewrite (first_match_continued _ _ _ _ _ _ F N).
      destruct (scan (Some c) (pred (List.length lexeme)) p) as [toks' | e] eqn:S.
      * rewrite (IH _ _ _ L S). destruct name; congruence.
      * destruct name; discriminate H.
    + simpl in Hk. apply IH. lia.
Qed.

End Continued.

(** * Examples *)

Example tokenize_declaration :
  Lexer.tokenize "int x = 5;" =
  Returned [mkToken KEYWORD "int"; mkToken ID "x"; mkToken OP "=";
            mkToken NUM "5"; mkToken DELIM ";"].
Proof. reflexivity. Qed.

Example parse_declaration :
  Parser.parse [mkToken KEYWORD "int"; mkToken ID "x"; mkToken OP "=";
                mkToken NUM "5"; mkToken DELIM ";"] =
  Some ([DeclareVar "int" "x"; AssignExpr "int" "x" (Leaf "5")], []).
Proof. reflexivity. Qed.

Example generate_declaration :
  ICG.generate [DeclareVar "int" "x"; AssignExpr "int" "x" (Leaf "5")] =
  Returned ["int x"; "x = 5"].
Proof. reflexivity. Qed.

Example array_pipeline :
  analyze "int arr[10];" =
  Some (Result
          [mkToken KEYWORD "int"; mkToken ID "arr"; mkToken LBRACKET "[";
           mkToken NUM "10"; mkToken RBRACKET "]"; mkToken DELIM ";"]
          [] [] ["int arr[10]"]).
Proof. vm_compute. reflexivity. Qed.

Example missing_semicolon_pipeline :
  analyze "int x = 5" =
  Some (Result
          [mkToken KEYWORD "int"; mkToken ID "x"; mkToken OP "=";
           mkToken NUM "5"]
          ["Syntax Error: Missing semicolon"] [] ["int x"; "x = 5"]).
Proof. vm_compute. reflexivity. Qed.

Example keyword_before_identifier :
  Lexer.tokenize "do double dot" =
  Returned [mkToken KEYWORD "do"; mkToken KEYWORD "double"; mkToken ID "dot"].
Proof. reflexivity. Qed.

Example number_gives_up_fraction :
  Lexer.rNUM None (list_ascii_of_string "1.5a") =
  Some (list_ascii_of_string "1", list_ascii_of_string ".5a")
  /\ Lexer.rNUM None (list_ascii_of_string "12ab") = None
  /\ Lexer.rNUM None (list_ascii_of_string "1.5.6") =
     Some (list_ascii_of_string "1.5", list_ascii_of_string ".6").
Proof. repeat split; reflexivity. Qed.

Example undeclared_target :
  SemanticAnalyzer.analyze [AssignExpr "int" "y" (Leaf "1")] =
  ["Semantic Error: Undeclared variable 'y'"].
Proof. reflexivity. Qed.

(** * The claims *)

Lemma list_ascii_of_string_app a b :
  list_ascii_of_string (a ++ b) = list_ascii_of_string a ++ list_ascii_of_string b.
Proof. induction a as [| c a IH]; simpl; [reflexivity | f_equal; exact IH]. Qed.

(** The route always answers. *)
Lemma analyze_total code : exists r, analyze code = Some r.
Proof.
  unfold analyze. destruct (Lexer.tokenize code) as [toks | e]; eauto.
  destruct (parse_total toks) as ([a errs] & P). rewrite P. eauto.
Qed.

(** A loop of the expression grammar that starts from a node returns a
    node. *)
Lemma loops_truthy n :
  (forall node p e p', truthy node = true ->
     Parser.add_sub_loop n node p = Some (e, p') -> truthy e = true)
  /\ (forall node p e p', truthy node = true ->
        Parser.mul_div_loop n node p = Some (e, p') -> truthy e = true).
Proof.
  induction n as [| n (IHa & IHm)]; split; simpl; intros node p e p' T;
    try discriminate.
  - destruct (Parser.match_or OP (Some "+") OP (Some "-") p) as [[op|] p1].
    + destruct (Parser.mul_div n p1) as [[r p2]|]; [|discriminate].
      apply IHa. reflexivity.
    + intros [= <- <-]. exact T.
  - destruct (Parser.match_or OP (Some "*") OP (Some "/") p) as [[op|] p1].
    + destruct (Parser.factor n p1) as [[r p2]|]; [|discriminate].
      apply IHm. reflexivity.
    + intros [= <- <-]. exact T.
Qed.

(** An expression that starts with a number or an identifier is a node. *)
Lemma leading_factor_truthy n p tok e p' :
  Parser.current p = Some tok -> type tok = NUM \/ type tok = ID ->
  Parser.expression n p = Some (e, p') -> truthy e = true.
Proof.
  intros C T. unfold Parser.expression.
  destruct n as [| [| [| n]]]; simpl; try (intros H; discriminate H).
  rewrite C.
  replace (kind_eqb (type tok) NUM || kind_eqb (type tok) ID) with true
    by (destruct T as [-> | ->]; reflexivity).
  destruct (Parser.match_or OP (Some "*") OP (Some "/") (Parser.advance p))
    as [[op|] q].
  - destruct (Parser.factor n q) as [[r q1]|]; [| intros H; discriminate H].
    destruct (Parser.mul_div_loop n _ q1) as [[node p1]|] eqn:M;
      [| intros H; discriminate H].
    apply (loops_truthy n) in M; [| reflexivity].
    apply (loops_truthy (S (S n))). exact M.
  - apply (loops_truthy (S (S n))). reflexivity.
Qed.

(** C1.  The claim is that no exception leaves the code generator on a tree
    of the parser.  On the tokens of ["int x = 5 + ;"] the parser appends an
    assignment whose right operand is [None], [handle_expr] subscripts it,
    and the route answers with the [TypeError] instead of the four lists. *)
Theorem partial_expression_raises :
  Lexer.tokenize "int x = 5 + ;" = Returned partial_tokens
  /\ Parser.parse partial_tokens =
     Some ([DeclareVar "int" "x";
            AssignExpr "int" "x" (BinOp "+" (Leaf "5") PyNone)], [])
  /\ SemanticAnalyzer.analyze
       [DeclareVar "int" "x"; AssignExpr "int" "x" (BinOp "+" (Leaf "5") PyNone)] = []
  /\ ICG.generate
       [DeclareVar "int" "x"; AssignExpr "int" "x" (BinOp "+" (Leaf "5") PyNone)] =
     Raised (TypeError "'NoneType' object is not subscriptable")
  /\ analyze "int x = 5 + ;" =
     Some (Error "'NoneType' object is not subscriptable").
Proof. repeat split; vm_compute; reflexivity. Qed.

(** C2, as amended.  In a generic statement that has matched [=], the
    diagnostic ["Syntax Error: Invalid expression"] is recorded if and only
    if the expression is [None]; every other expression, and so every
    expression that starts with a number or an identifier, is appended in
    an assignment node after the declaration.  On ["int x = 5 + ;"] the
    node holds the expression with the missing operand and nothing is
    recorded. *)
Theorem invalid_expression_iff :
  (forall fuel p type_tok id_tok pd eq_tok p1 e p2,
      Parser.declaration p = inr (type_tok, id_tok, pd) ->
      Parser.match_ OP (Some "=") pd = (Some eq_tok, p1) ->
      Parser.expression fuel p1 = Some (e, p2) ->
      exists p' new,
        Parser.statement fuel p = Some p'
        /\ Parser.errors p' = Parser.errors p ++ new
        /\ (In "Syntax Error: Invalid expression" new <-> e = PyNone)
        /\ (e = PyNone -> Parser.ast p' = Parser.ast pd)
        /\ (e <> PyNone ->
            Parser.ast p' =
            Parser.ast pd ++ [AssignExpr (value type_tok) (value id_tok) e])
        /\ (forall tok, Parser.current p1 = Some tok ->
                        type tok = NUM \/ type tok = ID -> e <> PyNone))
  /\ Parser.parse partial_tokens =
     Some ([DeclareVar "int" "x";
            AssignExpr "int" "x" (BinOp "+" (Leaf "5") PyNone)], []).
Proof.
  split; [| reflexivity].
  intros fuel p type_tok id_tok pd eq_tok p1 e p2 D M X.
  pose proof (declaration_inr _ _ _ _ D) as (_ & _ & Ed & _).
  pose proof (match_frame _ _ _ _ _ M) as (_ & Am & Em & _).
  pose proof (expression_frame _ _ _ _ X) as (_ & Ax & Ex & _).
  assert (LF : forall tok, Parser.current p1 = Some tok ->
                           type tok = NUM \/ type tok = ID -> e <> PyNone).
  { intros tok C T ->. pose proof (leading_factor_truthy _ _ _ _ _ C T X).
    discriminate. }
  unfold Parser.statement. rewrite D.
  unfold Parser.statement_assign. rewrite M, X.
  destruct e as [| v | op l r]; cbn [truthy].
  - exists (Parser.append_error p2 "Syntax Error: Invalid expression"),
      ["Syntax Error: Invalid expression"].
    simpl. repeat split; auto; congruence.
  - match goal with |- context [Parser.statement_delim ?q] =>
      destruct (statement_delim_spec q) as (_ & _ & Ad & [Edl | Edl]);
      exists (Parser.statement_delim q) end.
    + exists []. rewrite Ad, Edl. simpl. rewrite app_nil_r.
      repeat split; auto; try congruence; try tauto; try discriminate.
    + exists [Parser.missing_semicolon]. rewrite Ad, Edl. simpl.
      repeat split; auto; try congruence; try discriminate.
      intros [H | []]. discriminate H.
  - match goal with |- context [Parser.statement_delim ?q] =>
      destruct (statement_delim_spec q) as (_ & _ & Ad & [Edl | Edl]);
      exists (Parser.statement_delim q) end.
    + exists []. rewrite Ad, Edl. simpl. rewrite app_nil_r.
      repeat split; auto; try congruence; try tauto; try discriminate.
    + exists [Parser.missing_semicolon]. rewrite Ad, Edl. simpl.
      repeat split; auto; try congruence; try discriminate.
      intros [H | []]. discriminate H.
Qed.

Lemma invalid_expression_iff_witness :
  exists p',
    Parser.statement 20 (Parser.init partial_tokens) = Some p'
    /\ Parser.ast p' =
       [DeclareVar "int" "x"; AssignExpr "int" "x" (BinOp "+" (Leaf "5") PyNone)].
Proof.
  edestruct (proj1 invalid_expression_iff 20 (Parser.init partial_tokens))
    as (p' & new & S & _ & _ & _ & A & _);
    [reflexivity | reflexivity | reflexivity |].
  exists p'. split; [exact S |]. rewrite A by discriminate. reflexivity.
Defined.

(** C2 as stated fails on ["int x = ;"]: the expression after [=] is [None]
    and the one diagnostic recorded is not the text ["Invalid expression"]. *)
Lemma invalid_expression_text :
  let toks := [mkToken KEYWORD "int"; mkToken ID "x"; mkToken OP "=";
               mkToken DELIM ";"] in
  Parser.expression 20 (Parser.mk toks 3 [DeclareVar "int" "x"] []) =
    Some (PyNone, Parser.mk toks 3 [DeclareVar "int" "x"] [])
  /\ exists errs,
       Parser.statement 20 (Parser.init toks) =
         Some (Parser.mk toks 3 [DeclareVar "int" "x"] errs)
       /\ errs = ["Syntax Error: Invalid expression"]
       /\ ~ In "Invalid expression" errs.
Proof.
  split; [reflexivity |].
  exists ["Syntax Error: Invalid expression"].
  split; [reflexivity |]. split; [reflexivity |].
  intros [H | []]. discriminate H.
Qed.

Lemma redeclared_pipeline_eq :
  analyze "int x; int x;" =
  Some (Result
          [mkToken KEYWORD "int"; mkToken ID "x"; mkToken DELIM ";";
           mkToken KEYWORD "int"; mkToken ID "x"; mkToken DELIM ";"]
          []
          ["Semantic Error: 'x' redeclared"]
          ["int x"; "int x"]).
Proof. vm_compute. reflexivity. Qed.

(** C3, as amended.  On ["int x; int x;"] the lexer and the parser succeed
    with no syntax error, and the semantic errors are the single string
    ["Semantic Error: 'x' redeclared"]. *)
Theorem redeclared_pipeline :
  analyze "int x; int x;" =
  Some (Result
          [mkToken KEYWORD "int"; mkToken ID "x"; mkToken DELIM ";";
           mkToken KEYWORD "int"; mkToken ID "x"; mkToken DELIM ";"]
          []
          ["Semantic Error: 'x' redeclared"]
          ["int x"; "int x"]).
Proof. exact redeclared_pipeline_eq. Qed.

(** C3 as stated fails: the one semantic error is not the string
    ["'x' redeclared"]. *)
Lemma redeclared_text :
  (exists toks code,
      analyze "int x; int x;" =
      Some (Result toks [] ["Semantic Error: 'x' redeclared"] code))
  /\ ~ (exists toks syntax_errors code,
          analyze "int x; int x;" =
          Some (Result toks syntax_errors ["'x' redeclared"] code)).
Proof.
  rewrite redeclared_pipeline_eq. split.
  - eexists. eexists. reflexivity.
  - intros (toks & syntax_errors & code & H). discriminate H.
Qed.

(** C4.  On ["int x = 2 + 3 * 4;"] the code generator allocates exactly the
    two temporaries [t1] and [t2], the product first, and the lines of the
    assignment are ["t1 = 3 * 4"], ["t2 = 2 + t1"], ["x = t2"] in that
    order. *)
Theorem precedence_pipeline :
  let ast := [DeclareVar "int" "x";
              AssignExpr "int" "x"
                (BinOp "+" (Leaf "2") (BinOp "*" (Leaf "3") (Leaf "4")))] in
  analyze "int x = 2 + 3 * 4;" =
    Some (Result
            [mkToken KEYWORD "int"; mkToken ID "x"; mkToken OP "=";
             mkToken NUM "2"; mkToken OP "+"; mkToken NUM "3";
             mkToken OP "*"; mkToken NUM "4"; mkToken DELIM ";"]
            [] []
            ["int x"; "t1 = 3 * 4"; "t2 = 2 + t1"; "x = t2"])
  /\ (exists toks,
        Lexer.tokenize "int x = 2 + 3 * 4;" = Returned toks
        /\ Parser.parse toks = Some (ast, []))
  /\ ICG.generate_temps ast = ["t1"; "t2"].
Proof.
  cbv zeta. split; [vm_compute; reflexivity |]. split; [| reflexivity].
  eexists. split; vm_compute; reflexivity.
Qed.

(** C5.  [parse] returns on every list of tokens, with a result that a
    larger budget does not change.  The cursor moves forward in every call
    of [statement], in every call of [printf_statement] at a [printf]
    token, in every call of [function_definition] at a keyword, and so in
    every iteration of the driver loop and of the loop of the function
    body. *)
Theorem parse_terminates :
  (forall toks, exists r,
      forall fuel, Parser.budget toks <= fuel -> Parser.parse_with fuel toks = Some r)
  /\ (forall fuel p p',
        Parser.statement fuel p = Some p' -> Parser.pos p < Parser.pos p')
  /\ (forall p tok,
        Parser.current p = Some tok -> Parser.is_printf tok = true ->
        Parser.pos p < Parser.pos (Parser.printf_statement p))
  /\ (forall fuel p tok p',
        Parser.current p = Some tok -> type tok = KEYWORD ->
        Parser.function_definition fuel p = Some p' ->
        Parser.pos p < Parser.pos p')
  /\ (forall fuel p tok p',
        Parser.current p = Some tok -> Parser.parse_step fuel tok p = Some p' ->
        Parser.pos p < Parser.pos p')
  /\ (forall fuel p tok p1,
        Parser.current p = Some tok -> kind_eqb (type tok) RBRACE = false ->
        (if Parser.is_printf tok then Some (Parser.printf_statement p)
         else Parser.statement fuel p) = Some p1 ->
        Parser.function_body (S fuel) p = Parser.function_body fuel p1
        /\ Parser.pos p < Parser.pos p1).
Proof.
  split; [exact parse_with_total |].
  split; [intros fuel p p' H; apply (statement_progress _ _ _ H) |].
  split; [exact printf_statement_progress |].
  split; [exact function_definition_progress |].
  split; [intros fuel p tok p' C H; apply (parse_step_extends _ _ _ _ C H) |].
  intros fuel p tok p1 C R H. simpl. rewrite C, R.
  destruct (Parser.is_printf tok) eqn:P.
  - injection H as <-. split; [reflexivity |].
    apply (printf_statement_progress _ _ C P).
  - rewrite H. split; [reflexivity |]. apply (statement_progress _ _ _ H).
Qed.

Lemma parse_terminates_witness :
  (exists r, Parser.parse_with 40 partial_tokens = Some r)
  /\ Parser.pos (Parser.init [mkToken ID "x"]) <
     Parser.pos (Parser.mk [mkToken ID "x"] 2 []
                   ["Syntax Error: Invalid declaration"])
  /\ Parser.pos (Parser.init [mkToken KEYWORD "printf"]) <
     Parser.pos (Parser.printf_statement (Parser.init [mkToken KEYWORD "printf"])).
Proof.
  destruct parse_terminates as (T & S & P & _).
  split; [| split].
  - destruct (T partial_tokens) as (r & H). exists r. apply H.
    unfold Parser.budget. simpl. lia.
  - apply (S 5 (Parser.init [mkToken ID "x"])
             (Parser.mk [mkToken ID "x"] 2 []
                ["Syntax Error: Invalid declaration"])).
    reflexivity.
  - apply (P (Parser.init [mkToken KEYWORD "printf"]) (mkToken KEYWORD "printf"));
      reflexivity.
Defined.

Lemma NoDup_map_injective {A B : Type} (f : A -> B) (l : list A) :
  (forall i j, f i = f j -> i = j) -> NoDup l -> NoDup (map f l).
Proof.
  intros Inj. induction 1 as [| a l N _ IH]; simpl; constructor; auto.
  rewrite in_map_iff. intros (b & E & I). apply Inj in E. subst. contradiction.
Qed.

(** C6.  The counter starts at 0 and [new_temp] adds one to it and names
    the temporary after the new value, so the first name is [t1].  The lines
    that [handle_expr] appends are the definitions of the temporaries
    numbered from the counter it finds to the counter it leaves, one after
    the other and each under its own name; what it returns for an operator
    node is the temporary of the counter it leaves, and the line it appended
    last defines it.  Only [handle_expr] moves the counter, and a run never
    moves it back: in every run of [generate], to its return or to the
    exception that ends it, the names allocated are [t1], [t2], ... up to
    the final counter, in that order, and no name is allocated twice. *)
Theorem temporaries_sequential :
  ICG.temp_count ICG.init = 0
  /\ (forall g,
        ICG.new_temp g =
        (ICG.temp_name (ICG.temp_count g + 1),
         ICG.mk (ICG.code g) (ICG.temp_count g + 1)))
  /\ fst (ICG.new_temp ICG.init) = "t1"
  /\ (forall e g,
        exists rhss,
          ICG.temp_count (snd (ICG.handle_expr e g)) =
          ICG.temp_count g + List.length rhss
          /\ ICG.code (snd (ICG.handle_expr e g)) =
             ICG.code g
             ++ definitions
                  (map ICG.temp_name
                     (seq (ICG.temp_count g + 1) (List.length rhss)))
                  rhss
          /\ ICG.handle_expr_temps e g =
             map ICG.temp_name
               (seq (ICG.temp_count g + 1) (List.length rhss)))
  /\ (forall op l r g v,
        fst (ICG.handle_expr (BinOp op l r) g) = Returned v ->
        v = ICG.temp_name
              (ICG.temp_count (snd (ICG.handle_expr (BinOp op l r) g)))
        /\ ICG.temp_count g <
           ICG.temp_count (snd (ICG.handle_expr (BinOp op l r) g))
        /\ last (ICG.handle_expr_temps (BinOp op l r) g) EmptyString = v
        /\ exists rhs,
             last (ICG.code (snd (ICG.handle_expr (BinOp op l r) g)))
               EmptyString =
             (v ++ " = " ++ rhs)%string)
  /\ (forall s g,
        ICG.temp_count (snd (ICG.visit s g)) =
        match s with
        | AssignExpr _ _ e => ICG.temp_count (snd (ICG.handle_expr e g))
        | _ => ICG.temp_count g
        end)
  /\ (forall s g,
        exists rhss own,
          List.length rhss = List.length (ICG.visit_temps s g)
          /\ List.length own <= 1
          /\ ICG.code (snd (ICG.visit s g)) =
             ICG.code g ++ definitions (ICG.visit_temps s g) rhss ++ own)
  /\ (forall ast g, ICG.temp_count g <= ICG.temp_count (snd (ICG.run ast g)))
  /\ (forall ast,
        ICG.generate_temps ast =
        map ICG.temp_name (seq 1 (ICG.temp_count (snd (ICG.run ast ICG.init)))))
  /\ (forall ast, NoDup (ICG.generate_temps ast))
  /\ (forall ast k name,
        nth_error (ICG.generate_temps ast) k = Some name ->
        name = ICG.temp_name (S k))
  /\ (forall i j, ICG.temp_name i = ICG.temp_name j -> i = j).
Proof.
  assert (E : forall ast,
             ICG.generate_temps ast =
             map ICG.temp_name
               (seq 1 (ICG.temp_count (snd (ICG.run ast ICG.init))))).
  { intros ast. unfold ICG.generate_temps.
    destruct (run_temps_seq ast ICG.init) as (_ & H). rewrite H. simpl.
    rewrite Nat.sub_0_r. reflexivity. }
  split; [reflexivity |]. split; [reflexivity |]. split; [reflexivity |].
  split; [| split; [| split; [| split; [| split; [| split; [| split;
    [| split]]]]]]].
  - intros e g.
    destruct (handle_expr_definitions e g) as (rhss & L & C).
    destruct (handle_expr_temps_seq e g) as (M & T).
    assert (N : List.length rhss =
                ICG.temp_count (snd (ICG.handle_expr e g)) - ICG.temp_count g).
    { rewrite L, T, length_map, length_seq. reflexivity. }
    exists rhss. rewrite N. split; [lia |]. rewrite <- T. auto.
  - intros op l r g v H. apply handle_expr_returned, H.
  - apply visit_temp_count.
  - apply visit_definitions.
  - intros ast g. apply run_temps_seq.
  - exact E.
  - intros ast. rewrite E. apply NoDup_map_injective.
    + intros i j. apply temp_name_inj.
    + apply seq_NoDup.
  - intros ast k name. rewrite E, nth_error_map.
    destruct (nth_error (seq 1 _) k) as [i|] eqn:N; [| discriminate].
    intros [= <-]. f_equal.
    pose proof (nth_error_nth _ _ 0 N) as H. rewrite seq_nth in H; [lia |].
    assert (L : k < List.length (seq 1 (ICG.temp_count (snd (ICG.run ast ICG.init)))))
      by (apply nth_error_Some; congruence).
    rewrite length_seq in L. exact L.
  - apply temp_name_inj.
Qed.

Lemma temporaries_sequential_witness :
  ("t2" = ICG.temp_name 2
   /\ ICG.temp_count ICG.init < 2
   /\ last ["t1"; "t2"] EmptyString = "t2"
   /\ exists rhs, "t2 = 2 + t1" = ("t2" ++ " = " ++ rhs)%string)
  /\ "t2" = ICG.temp_name 2.
Proof.
  destruct temporaries_sequential
    as (_ & _ & _ & _ & R & _ & _ & _ & _ & _ & H & _).
  split; [exact (R "+" (Leaf "2") (BinOp "*" (Leaf "3") (Leaf "4"))
                   ICG.init "t2" eq_refl) |].
  apply (H [AssignExpr "int" "x"
              (BinOp "+" (Leaf "2") (BinOp "*" (Leaf "3") (Leaf "4")))] 1 "t2").
  reflexivity.
Defined.

Lemma match_any type_ q :
  Parser.match_ type_ None q =
  if Parser.has_kind type_ (Parser.current q)
  then (Parser.current q, Parser.advance q) else (None, q).
Proof.
  unfold Parser.match_, Parser.has_kind.
  destruct (Parser.current q) as [t|]; [| reflexivity].
  rewrite andb_true_r. reflexivity.
Qed.

(** The parser [k] tokens further on. *)
Lemma match_further type_ p k :
  Parser.match_ type_ None
    (Parser.mk (Parser.tokens p) (Parser.pos p + k) (Parser.ast p) (Parser.errors p)) =
  if Parser.has_kind type_ (Parser.peek p k)
  then (Parser.peek p k,
        Parser.mk (Parser.tokens p) (Parser.pos p + S k) (Parser.ast p)
          (Parser.errors p))
  else (None,
        Parser.mk (Parser.tokens p) (Parser.pos p + k) (Parser.ast p)
          (Parser.errors p)).
Proof.
  rewrite match_any. unfold Parser.advance, Parser.current, Parser.peek. simpl.
  replace (Parser.pos p + k + 1) with (Parser.pos p + S k) by lia. reflexivity.
Qed.

(** C7, as amended.  At a [printf] token, [printf_statement] looks for
    [(], a string, [)] and a delimiter.  The first of them that is missing
    leaves the tree as it was and records exactly one diagnostic,
    ["Syntax Error: Expected '('"], ["Syntax Error: Expected string in printf"],
    ["Syntax Error: Expected ')' in printf"] or
    ["Syntax Error: Missing semicolon after printf"] respectively; when all
    are there the node of the string is appended and nothing is recorded. *)
Theorem printf_statement_diagnostics p tok :
  Parser.current p = Some tok -> Parser.is_printf tok = true ->
  let p' := Parser.printf_statement p in
  if negb (Parser.has_kind LPAREN (Parser.peek p 1)) then
    Parser.ast p' = Parser.ast p
    /\ Parser.errors p' = Parser.errors p ++ ["Syntax Error: Expected '('"]
  else if negb (Parser.has_kind STRING (Parser.peek p 2)) then
    Parser.ast p' = Parser.ast p
    /\ Parser.errors p' =
       Parser.errors p ++ ["Syntax Error: Expected string in printf"]
  else if negb (Parser.has_kind RPAREN (Parser.peek p 3)) then
    Parser.ast p' = Parser.ast p
    /\ Parser.errors p' =
       Parser.errors p ++ ["Syntax Error: Expected ')' in printf"]
  else if negb (Parser.has_kind DELIM (Parser.peek p 4)) then
    Parser.ast p' = Parser.ast p
    /\ Parser.errors p' =
       Parser.errors p ++ ["Syntax Error: Missing semicolon after printf"]
  else
    exists str_tok,
      Parser.peek p 2 = Some str_tok
      /\ Parser.ast p' = Parser.ast p ++ [Printf (value str_tok)]
      /\ Parser.errors p' = Parser.errors p.
Proof.
  intros C P. cbv zeta. unfold Parser.printf_statement.
  rewrite (is_printf_match _ _ C P).
  change (Parser.advance p)
    with (Parser.mk (Parser.tokens p) (Parser.pos p + 1) (Parser.ast p)
            (Parser.errors p)).
  rewrite match_further.
  destruct (Parser.has_kind LPAREN (Parser.peek p 1)) eqn:K1; cbn [negb].
  2:{ split; reflexivity. }
  destruct (Parser.peek p 1) as [lp|]; [| discriminate K1].
  rewrite match_further.
  destruct (Parser.has_kind STRING (Parser.peek p 2)) eqn:K2; cbn [negb].
  2:{ split; reflexivity. }
  destruct (Parser.peek p 2) as [str_tok|]; [| discriminate K2].
  rewrite match_further.
  destruct (Parser.has_kind RPAREN (Parser.peek p 3)) eqn:K3; cbn [negb].
  2:{ split; reflexivity. }
  destruct (Parser.peek p 3) as [rp|]; [| discriminate K3].
  rewrite match_further.
  destruct (Parser.has_kind DELIM (Parser.peek p 4)) eqn:K4; cbn [negb].
  2:{ split; reflexivity. }
  destruct (Parser.peek p 4) as [dl|]; [| discriminate K4].
  exists str_tok. repeat split; reflexivity.
Qed.

Lemma printf_statement_diagnostics_witness :
  let p := Parser.init [mkToken KEYWORD "printf"; mkToken LPAREN "(";
                        mkToken ID "x"] in
  Parser.ast (Parser.printf_statement p) = []
  /\ Parser.errors (Parser.printf_statement p) =
     ["Syntax Error: Expected string in printf"].
Proof.
  exact (printf_statement_diagnostics
           (Parser.init [mkToken KEYWORD "printf"; mkToken LPAREN "(";
                         mkToken ID "x"])
           (mkToken KEYWORD "printf") eq_refl eq_refl).
Defined.

(** C7 as stated fails on [printf ;]: the diagnostic recorded for the
    missing [(] is not the text ["Expected '('"]. *)
Lemma printf_statement_text :
  let p := Parser.init [mkToken KEYWORD "printf"; mkToken DELIM ";"] in
  Parser.printf_statement p =
    Parser.mk [mkToken KEYWORD "printf"; mkToken DELIM ";"] 1 []
      ["Syntax Error: Expected '('"]
  /\ ~ In "Expected '('" (Parser.errors (Parser.printf_statement p)).
Proof.
  split; [reflexivity |]. simpl. intros [H | []]. discriminate H.
Qed.

(** C8, as amended.  When the text before an [@] tokenizes without error,
    tokenizing the whole source raises the lexical error that names [@];
    and a lexical error is all the route answers: no tokens, no
    diagnostics, no code. *)
Theorem unexpected_at (p tail : string) (toks : list Token) :
  Lexer.tokenize p = Returned toks ->
  Lexer.tokenize (p ++ String "@" tail) =
    Raised (RuntimeError "Unexpected character: @")
  /\ analyze (p ++ String "@" tail) = Some (Error "Unexpected character: @").
Proof.
  unfold Lexer.tokenize. intros H.
  assert (E : Lexer.scan None 0 (list_ascii_of_string (p ++ String "@" tail)) =
              Raised (RuntimeError "Unexpected character: @")).
  { rewrite list_ascii_of_string_app. simpl.
    apply (scan_continued (list_ascii_of_string tail) _ None 0 toks);
      [lia | exact H]. }
  split; [exact E |]. unfold analyze, Lexer.tokenize. rewrite E. reflexivity.
Qed.

Lemma unexpected_at_witness :
  Lexer.tokenize "int x = @;" = Raised (RuntimeError "Unexpected character: @")
  /\ analyze "int x = @;" = Some (Error "Unexpected character: @").
Proof.
  exact (unexpected_at "int x = " ";"
           [mkToken KEYWORD "int"; mkToken ID "x"; mkToken OP "="] eq_refl).
Defined.

(** C8 as stated fails on ["$@"]: at the position of [@] no rule but the
    catch-all matches, and the error names [$]. *)
Lemma unexpected_dollar :
  Lexer.first_match Lexer.token_spec (Some "$"%char) ["@"%char] =
    Some (MISMATCH, ["@"%char], [])
  /\ Lexer.tokenize "$@" = Raised (RuntimeError "Unexpected character: $")
  /\ analyze "$@" = Some (Error "Unexpected character: $")
  /\ analyze "$@" <> Some (Error "Unexpected character: @").
Proof.
  split; [reflexivity |]. split; [reflexivity |]. split; [reflexivity |].
  intros H. vm_compute in H. discriminate H.
Qed.

(** A constructor's instance is the last one of the process, and a method
    called on it assigns there. *)
Lemma nth_error_construct (o : instance) (w : process) :
  nth_error (w ++ [o]) (List.length w) = Some o.
Proof. rewrite nth_error_app2, Nat.sub_diag by lia. reflexivity. Qed.

Lemma assign_construct (o o1 : instance) (w : process) :
  assign (List.length w) o1 (w ++ [o]) = w ++ [o1].
Proof. induction w as [| x w IH]; simpl; [| rewrite IH]; reflexivity. Qed.

(** In any process the route answers what its body computes from the
    request alone, and leaves the instances it found as they were. *)
Lemma analyze_in_any (code : string) (r : Response) (w : process) :
  analyze code = Some r ->
  exists made, analyze_in code w = Some (r, w ++ made).
Proof.
  unfold analyze, analyze_in, construct, tokenize_on.
  rewrite nth_error_construct.
  destruct (Lexer.tokenize code) as [toks | e].
  2:{ intros [= <-]. exists [OfLexer]. reflexivity. }
  unfold Parser.parse, Parser.parse_with, parse_on.
  rewrite nth_error_construct.
  change (Parser.tokens (Parser.init toks)) with toks.
  destruct (Parser.parse_loop (Parser.budget toks) (Parser.init toks))
    as [p |]; [| discriminate].
  rewrite assign_construct.
  unfold analyze_on. rewrite nth_error_construct, assign_construct.
  unfold generate_on. rewrite nth_error_construct.
  unfold analyze_tokens, ICG.generate, SemanticAnalyzer.analyze.
  destruct (ICG.run (Parser.ast p) ICG.init) as [[u | ex] g];
    rewrite assign_construct; intros [= <-].
  - exists [OfLexer; OfParser p;
            OfSemanticAnalyzer (Parser.ast p)
              (SemanticAnalyzer.run (Parser.ast p) SemanticAnalyzer.init);
            OfICG (Parser.ast p) g].
    rewrite <- !app_assoc. reflexivity.
  - exists [OfLexer; OfParser p;
            OfSemanticAnalyzer (Parser.ast p)
              (SemanticAnalyzer.run (Parser.ast p) SemanticAnalyzer.init);
            OfICG (Parser.ast p) g].
    rewrite <- !app_assoc. reflexivity.
Qed.

Lemma serve_history (history rest : list string) :
  forall w,
  exists replies w1,
    List.length replies = List.length history
    /\ serve (history ++ rest) w = replies ++ serve rest w1.
Proof.
  induction history as [| code history IH]; intros w.
  - exists [], w. auto.
  - simpl. destruct (analyze_total code) as (r & A).
    destruct (analyze_in_any code r w A) as (made & ->).
    destruct (IH (w ++ made)) as (replies & w1 & L & ->).
    exists (Some r :: replies), w1. simpl. auto.
Qed.

(** C9.  The route answers every request, and the answer to a request is
    the same whatever was analyzed before it.  The process keeps every
    instance that the requests before have made, with the tokens, cursor,
    symbols, lines and counter their runs left in it; a request makes its
    own four instances, works on these alone and leaves the others as they
    are.  What an instance holds does count, a code generator called again
    returns the lines of its earlier run before the new ones; but no
    request calls a method on an instance of another.  So the same source
    sent twice, after any requests and in any process, gets the same
    tokens, diagnostics and code, or the same error, and it is what the
    body of the route computes from the source alone. *)
Theorem pipeline_deterministic (w : process) (history : list string)
  (code : string) :
  exists r,
    analyze code = Some r
    /\ (forall w0, exists made, analyze_in code w0 = Some (r, w0 ++ made))
    /\ (forall icg w0 ast self lines w1,
          nth_error w0 icg = Some (OfICG ast self) ->
          generate_on icg w0 = Some (Returned lines, w1) ->
          exists more, lines = ICG.code self ++ more)
    /\ nth_error (serve (history ++ [code; code]) w) (List.length history) =
       Some (Some r)
    /\ nth_error (serve (history ++ [code; code]) w)
         (S (List.length history)) =
       Some (Some r)
    /\ serve [code] [] = [Some r].
Proof.
  destruct (analyze_total code) as (r & A). exists r.
  split; [exact A |]. split; [intros w0; apply analyze_in_any, A |].
  split.
  { intros icg w0 ast self lines w2 N. unfold generate_on. rewrite N.
    destruct (run_keeps_code ast self) as (more & M).
    destruct (ICG.run ast self) as [[u | ex] g]; intros [= <- _];
      simpl in M. eauto. }
  destruct (serve_history history [code; code] w) as (replies & w1 & L & ->).
  cbn [serve].
  destruct (analyze_in_any code r w1 A) as (m1 & ->).
  destruct (analyze_in_any code r (w1 ++ m1) A) as (m2 & ->).
  destruct (analyze_in_any code r [] A) as (m3 & ->).
  rewrite <- L. split; [| split; [| reflexivity]].
  - rewrite nth_error_app2; [| apply Nat.le_refl].
    rewrite Nat.sub_diag. reflexivity.
  - rewrite nth_error_app2; [| apply Nat.le_succ_diag_r].
    replace (S (List.length replies) - List.length replies) with 1 by lia.
    reflexivity.
Qed.

Lemma pipeline_deterministic_witness :
  exists more,
    ["t1 = 1 + 2"; "x = t1"; "t2 = 1 + 2"; "x = t2"] =
    ["t1 = 1 + 2"; "x = t1"] ++ more.
Proof.
  destruct (pipeline_deterministic [] [] EmptyString)
    as (_ & _ & _ & G & _).
  exact (G 0
           [OfICG [AssignExpr "int" "x" (BinOp "+" (Leaf "1") (Leaf "2"))]
              (ICG.mk ["t1 = 1 + 2"; "x = t1"] 1)]
           [AssignExpr "int" "x" (BinOp "+" (Leaf "1") (Leaf "2"))]
           (ICG.mk ["t1 = 1 + 2"; "x = t1"] 1)
           ["t1 = 1 + 2"; "x = t1"; "t2 = 1 + 2"; "x = t2"]
           [OfICG [AssignExpr "int" "x" (BinOp "+" (Leaf "1") (Leaf "2"))]
              (ICG.mk ["t1 = 1 + 2"; "x = t1"; "t2 = 1 + 2"; "x = t2"] 2)]
           eq_refl eq_refl).
Defined.

(** C10.  On every list of tokens the parser returns a tree in which each
    assignment comes right after the declaration of its variable, and the
    semantic analyzer reports no undeclared variable on it. *)
Theorem no_undeclared_on_parsed (toks : list Token) :
  exists ast syntax_errors,
    Parser.parse toks = Some (ast, syntax_errors)
    /\ Parser.well_paired ast
    /\ forall name,
         ~ In (SemanticAnalyzer.undeclared name) (SemanticAnalyzer.analyze ast).
Proof.
  destruct (parse_total toks) as ([ast errs] & P).
  exists ast, errs. split; [exact P |].
  pose proof (parse_well_paired _ _ _ P) as W. split; [exact W |].
  intros name H. unfold SemanticAnalyzer.analyze in H.
  apply (run_well_paired _ W) in H. exact H.
Qed.

(** * Further properties *)

(** ** The code generator *)

Section GeneratorRuns.

Import ICG.

Lemma handle_expr_complete e :
  contains_none e = false ->
  forall g, exists v g',
    handle_expr e g = (Returned v, g')
    /\ List.length (code g') = List.length (code g) + binops e
    /\ temp_count g' = temp_count g + binops e.
Proof.
  induction e as [| v | op l IHl r IHr]; simpl; intros N g.
  - discriminate.
  - exists v, g. repeat split; lia.
  - apply orb_false_iff in N. destruct N as (Nl & Nr).
    destruct (IHl Nl g) as (vl & g1 & El & Ll & Tl). rewrite El.
    destruct (IHr Nr g1) as (vr & g2 & Er & Lr & Tr). rewrite Er.
    eexists. eexists. split; [reflexivity |]. simpl.
    rewrite length_app. simpl. lia.
Qed.

Lemma handle_expr_partial e :
  contains_none e = true ->
  forall g, fst (handle_expr e g) = Raised not_subscriptable.
Proof.
  induction e as [| v | op l IHl r IHr]; simpl; intros N g.
  - reflexivity.
  - discriminate.
  - destruct (contains_none l) eqn:Nl.
    + specialize (IHl eq_refl g).
      destruct (handle_expr l g) as [[vl | e] g1]; simpl in *; congruence.
    + simpl in N. destruct (handle_expr_complete l Nl g) as (vl & g1 & El & _).
      rewrite El. specialize (IHr N g1).
      destruct (handle_expr r g1) as [[vr | e] g2]; simpl in *; congruence.
Qed.

Lemma run_complete ast :
  existsb stmt_contains_none ast = false ->
  forall g, exists g',
    run ast g = (Returned tt, g')
    /\ List.length (code g') =
       List.length (code g) + List.length ast + list_sum (map stmt_binops ast).
Proof.
  induction ast as [| s rest IH]; simpl; intros N g.
  - exists g. split; [reflexivity | lia].
  - apply orb_false_iff in N. destruct N as (Ns & Nr).
    assert (V : exists g1, visit s g = (Returned tt, g1)
                           /\ List.length (code g1) =
                              List.length (code g) + 1 + stmt_binops s).
    { destruct s; simpl; try (eexists; split; [reflexivity |]; simpl;
                               rewrite length_app; simpl; lia).
      simpl in Ns. destruct (handle_expr_complete e Ns g) as (v & g1 & E & L & _).
      rewrite E. eexists; split; [reflexivity |]. simpl.
      rewrite length_app. simpl. lia. }
    destruct V as (g1 & V & L1). rewrite V.
    destruct (IH Nr g1) as (g' & R & L). exists g'. split; [exact R | lia].
Qed.

Lemma run_partial ast :
  existsb stmt_contains_none ast = true ->
  forall g, fst (run ast g) = Raised not_subscriptable.
Proof.
  induction ast as [| s rest IH]; simpl; intros N g; [discriminate |].
  destruct (stmt_contains_none s) eqn:Ns.
  - destruct s; simpl in Ns; try discriminate. simpl.
    pose proof (handle_expr_partial e Ns g) as H.
    destruct (handle_expr e g) as [[v | ex] g1]; simpl in *; congruence.
  - simpl in N.
    destruct (run_complete [s] ltac:(simpl; rewrite Ns; reflexivity) g)
      as (g1 & R & _).
    simpl in R. destruct (visit s g) as [[u | ex] g2]; [| discriminate R].
    apply IH, N.
Qed.

End GeneratorRuns.

(** X1.  [handle_expr] returns a value only on an expression in which
    [None] does not occur; whenever it returns it has appended one line and
    allocated one temporary for each operator node of the expression. *)
Theorem handle_expr_returns_complete (e : expr) (g : ICG.t) (v : string) :
  fst (ICG.handle_expr e g) = Returned v ->
  contains_none e = false
  /\ List.length (ICG.code (snd (ICG.handle_expr e g))) =
     List.length (ICG.code g) + binops e
  /\ ICG.temp_count (snd (ICG.handle_expr e g)) =
     ICG.temp_count g + binops e.
Proof.
  intros R. destruct (contains_none e) eqn:N.
  - rewrite (handle_expr_partial e N g) in R. discriminate R.
  - destruct (handle_expr_complete e N g) as (v' & g' & E & L & T).
    rewrite E. simpl. auto.
Qed.

Lemma handle_expr_returns_complete_witness :
  contains_none (BinOp "+" (Leaf "2") (BinOp "*" (Leaf "3") (Leaf "4"))) = false
  /\ List.length (ICG.code (snd (ICG.handle_expr
       (BinOp "+" (Leaf "2") (BinOp "*" (Leaf "3") (Leaf "4"))) ICG.init))) =
     0 + 2
  /\ ICG.temp_count (snd (ICG.handle_expr
       (BinOp "+" (Leaf "2") (BinOp "*" (Leaf "3") (Leaf "4"))) ICG.init)) =
     0 + 2.
Proof.
  exact (handle_expr_returns_complete
           (BinOp "+" (Leaf "2") (BinOp "*" (Leaf "3") (Leaf "4"))) ICG.init
           "t2" eq_refl).
Defined.

(** X2.  [generate] returns only on a tree in which [None] occurs in the
    expression of no assignment, whatever else the tree holds; what it
    returns then has one line for each statement and one more for each
    operator node. *)
Theorem generate_returns_complete (ast : list stmt) (code : list string) :
  ICG.generate ast = Returned code ->
  existsb stmt_contains_none ast = false
  /\ List.length code = List.length ast + list_sum (map stmt_binops ast).
Proof.
  unfold ICG.generate. intros G.
  destruct (existsb stmt_contains_none ast) eqn:N.
  - pose proof (run_partial ast N ICG.init) as R.
    destruct (ICG.run ast ICG.init) as [[u | ex] g]; simpl in R;
      [discriminate R | discriminate G].
  - destruct (run_complete ast N ICG.init) as (g & R & L). rewrite R in G.
    injection G as <-. split; [reflexivity | exact L].
Qed.

Lemma generate_returns_complete_witness :
  existsb stmt_contains_none
    [DeclareVar "int" "x";
     AssignExpr "int" "x"
       (BinOp "+" (Leaf "2") (BinOp "*" (Leaf "3") (Leaf "4")))] = false
  /\ List.length ["int x"; "t1 = 3 * 4"; "t2 = 2 + t1"; "x = t2"] =
     2 + list_sum (map stmt_binops
           [DeclareVar "int" "x";
            AssignExpr "int" "x"
              (BinOp "+" (Leaf "2") (BinOp "*" (Leaf "3") (Leaf "4")))]).
Proof.
  exact (generate_returns_complete
           [DeclareVar "int" "x";
            AssignExpr "int" "x"
              (BinOp "+" (Leaf "2") (BinOp "*" (Leaf "3") (Leaf "4")))]
           ["int x"; "t1 = 3 * 4"; "t2 = 2 + t1"; "x = t2"] eq_refl).
Defined.

(** ** The semantic analyzer *)

Section AnalyzerRuns.

Import SemanticAnalyzer.

Lemma string_app_inv_tail a b c : (a ++ c)%string = (b ++ c)%string -> a = b.
Proof.
  intros H. apply (f_equal list_ascii_of_string) in H.
  rewrite !list_ascii_of_string_app in H. apply app_inv_tail in H.
  apply (f_equal string_of_list_ascii) in H.
  rewrite !string_of_list_ascii_of_string in H. exact H.
Qed.

Lemma redeclared_inj n m : redeclared n = redeclared m -> n = m.
Proof.
  unfold redeclared. simpl. intros H. injection H as H.
  apply string_app_inv_tail in H. exact H.
Qed.

Lemma undeclared_inj n m : undeclared n = undeclared m -> n = m.
Proof.
  unfold undeclared. simpl. intros H. injection H as H.
  apply string_app_inv_tail in H. exact H.
Qed.

Lemma mem_In n (x : set string) : set_mem string_dec n x = true <-> set_In n x.
Proof.
  split; [apply set_mem_correct1 | apply set_mem_correct2].
Qed.

Lemma mem_not_In n (x : set string) : set_mem string_dec n x = false <-> ~ set_In n x.
Proof.
  rewrite <- mem_In. destruct (set_mem string_dec n x); split; congruence.
Qed.

(** The symbols after a statement: those before and the name it declares. *)
Lemma visit_symbols a s n :
  set_In n (symbols (visit a s)) <->
  set_In n (symbols a) \/ declared_name s = Some n.
Proof.
  destruct s; simpl;
    try solve [split; [auto | intros [H | H]; [auto | discriminate]]].
  - unfold declare. destruct (set_mem string_dec name (symbols a)) eqn:M; simpl.
    + apply mem_In in M. split; auto. intros [H | [= <-]]; auto.
    + rewrite set_add_iff. split.
      * intros [-> | H]; auto.
      * intros [H | [= <-]]; auto.
  - unfold declare. destruct (set_mem string_dec name (symbols a)) eqn:M; simpl.
    + apply mem_In in M. split; auto. intros [H | [= <-]]; auto.
    + rewrite set_add_iff. split.
      * intros [-> | H]; auto.
      * intros [H | [= <-]]; auto.
  - destruct (set_mem string_dec name (symbols a)); simpl;
      (split; [auto | intros [H | H]; [auto | discriminate]]).
Qed.

Lemma visit_redeclared a s n :
  In (redeclared n) (errors (visit a s)) <->
  In (redeclared n) (errors a)
  \/ (declared_name s = Some n /\ set_In n (symbols a)).
Proof.
  assert (D : forall name,
             In (redeclared n) (errors (declare name a)) <->
             In (redeclared n) (errors a)
             \/ (Some name = Some n /\ set_In n (symbols a))).
  { intros name. unfold declare.
    destruct (set_mem string_dec name (symbols a)) eqn:M; simpl.
    - apply mem_In in M. rewrite in_app_iff. simpl. split.
      + intros [H | [H | []]]; auto. apply redeclared_inj in H. subst. auto.
      + intros [H | ([= <-] & _)]; auto.
    - apply mem_not_In in M. split; auto.
      intros [H | ([= <-] & H)]; [auto | contradiction]. }
  destruct s; simpl; try apply D;
    try solve [split; [auto | intros [H | (H & _)]; [auto | discriminate]]].
  destruct (set_mem string_dec name (symbols a)); simpl.
  - split; [auto | intros [H | (H & _)]; [auto | discriminate]].
  - rewrite in_app_iff. simpl. split.
    + intros [H | [H | []]]; auto.
      exfalso. exact (redeclared_not_undeclared _ _ (eq_sym H)).
    + intros [H | (H & _)]; [auto | discriminate].
Qed.

Lemma visit_undeclared a s n :
  In (undeclared n) (errors (visit a s)) <->
  In (undeclared n) (errors a)
  \/ ((exists typ e, s = AssignExpr typ n e) /\ ~ set_In n (symbols a)).
Proof.
  assert (D : forall name,
             In (undeclared n) (errors (declare name a)) <->
             In (undeclared n) (errors a)).
  { intros name. unfold declare.
    destruct (set_mem string_dec name (symbols a)); simpl; [| tauto].
    rewrite in_app_iff. simpl. split; auto.
    intros [H | [H | []]]; auto.
    exfalso. exact (redeclared_not_undeclared _ _ H). }
  destruct s; simpl; rewrite ?D;
    try solve [split; [auto | intros [H | ((typ0 & e0 & H) & _)];
                              [auto | discriminate]]].
  destruct (set_mem string_dec name (symbols a)) eqn:M; simpl.
  - apply mem_In in M. split; auto.
    intros [H | ((typ0 & e0 & [= _ <- _]) & H')]; [auto | contradiction].
  - apply mem_not_In in M. rewrite in_app_iff. simpl. split.
    + intros [H | [H | []]]; auto. apply undeclared_inj in H. subst.
      right. split; eauto.
    + intros [H | ((typ0 & e0 & [= _ <- _]) & H')]; auto.
Qed.

Lemma declared_cons s l n :
  In n (declared (s :: l)) <-> declared_name s = Some n \/ In n (declared l).
Proof.
  simpl. destruct (declared_name s) as [m|]; simpl.
  - split; intros [H | H]; auto; left; congruence.
  - split; [auto | intros [H | H]; [discriminate | auto]].
Qed.

(** A redeclaration of [n] is among the errors after a run exactly when it
    was there before or some statement declares [n] while [n] is a
    symbol. *)
Lemma run_redeclared ast n :
  forall a,
    In (redeclared n) (errors (run ast a)) <->
    In (redeclared n) (errors a)
    \/ exists l1 s l2,
         ast = l1 ++ s :: l2 /\ declared_name s = Some n
         /\ (set_In n (symbols a) \/ In n (declared l1)).
Proof.
  unfold run. induction ast as [| s rest IH]; intros a; simpl.
  - split; auto. intros [H | (l1 & s & l2 & H & _)]; auto.
    destruct l1; discriminate H.
  - rewrite IH, visit_redeclared. split.
    + intros [[H | (D & S)] | (l1 & s' & l2 & -> & D & H)]; auto.
      * right. exists [], s, rest. auto.
      * right. exists (s :: l1), s', l2. split; [reflexivity |].
        split; [exact D |]. rewrite declared_cons.
        rewrite visit_symbols in H. tauto.
    + intros [H | (l1 & s' & l2 & E & D & H)]; auto.
      destruct l1 as [| s0 l1]; simpl in E; injection E as -> ->.
      * destruct H as [H | []]. auto.
      * right. exists l1, s', l2. split; [reflexivity |].
        split; [exact D |]. rewrite declared_cons in H.
        rewrite visit_symbols. tauto.
Qed.

Lemma run_undeclared ast n :
  forall a,
    In (undeclared n) (errors (run ast a)) <->
    In (undeclared n) (errors a)
    \/ exists l1 typ e l2,
         ast = l1 ++ AssignExpr typ n e :: l2
         /\ ~ set_In n (symbols a) /\ ~ In n (declared l1).
Proof.
  unfold run. induction ast as [| s rest IH]; intros a; simpl.
  - split; auto. intros [H | (l1 & typ & e & l2 & H & _)]; auto.
    destruct l1; discriminate H.
  - rewrite IH, visit_undeclared. split.
    + intros [[H | ((typ & e & ->) & S)] | (l1 & typ & e & l2 & -> & S & D)];
        auto.
      * right. exists [], typ, e, rest. auto.
      * right. exists (s :: l1), typ, e, l2. split; [reflexivity |].
        rewrite declared_cons. rewrite visit_symbols in S. tauto.
    + intros [H | (l1 & typ & e & l2 & E & S & D)]; auto.
      destruct l1 as [| s0 l1]; simpl in E; injection E as -> ->.
      * left. right. split; eauto.
      * right. exists l1, typ, e, l2. split; [reflexivity |].
        rewrite declared_cons in D. rewrite visit_symbols. tauto.
Qed.

Lemma visit_same_target a s s' :
  same_target s s' -> visit a s = visit a s'.
Proof.
  destruct s, s'; simpl; intros H; try discriminate H; try congruence.
  subst. reflexivity.
Qed.

End AnalyzerRuns.

(** X3.  The analyzer reports that [n] is redeclared exactly when some
    statement declares [n], as a variable or as an array, after an earlier
    statement has declared it. *)
Theorem redeclared_iff (ast : list stmt) (n : string) :
  In (SemanticAnalyzer.redeclared n) (SemanticAnalyzer.analyze ast) <->
  exists l1 s l2,
    ast = l1 ++ s :: l2 /\ declared_name s = Some n /\ In n (declared l1).
Proof.
  unfold SemanticAnalyzer.analyze. rewrite run_redeclared. simpl. split.
  - intros [[] | (l1 & s & l2 & E & D & [[] | H])]. eauto 6.
  - intros (l1 & s & l2 & E & D & H). right. eauto 7.
Qed.

(** X4.  The analyzer reports that [n] is undeclared exactly when some
    assignment has the target [n] and no statement before it declares [n];
    a declaration that comes later does not help. *)
Theorem undeclared_iff (ast : list stmt) (n : string) :
  In (SemanticAnalyzer.undeclared n) (SemanticAnalyzer.analyze ast) <->
  exists l1 typ e l2,
    ast = l1 ++ AssignExpr typ n e :: l2 /\ ~ In n (declared l1).
Proof.
  unfold SemanticAnalyzer.analyze. rewrite run_undeclared. simpl. split.
  - intros [[] | (l1 & typ & e & l2 & E & _ & D)]. eauto 6.
  - intros (l1 & typ & e & l2 & E & D). right.
    exists l1, typ, e, l2. tauto.
Qed.

(** X5.  The analyzer never looks at the type or at the expression of an
    assignment: two trees that differ only there get the same errors, so a
    name used inside an expression is never checked. *)
Theorem analyze_ignores_expressions (ast ast' : list stmt) :
  Forall2 same_target ast ast' ->
  SemanticAnalyzer.analyze ast = SemanticAnalyzer.analyze ast'.
Proof.
  unfold SemanticAnalyzer.analyze, SemanticAnalyzer.run. intros F.
  generalize SemanticAnalyzer.init.
  induction F as [| s s' l l' H _ IH]; intros a; simpl; [reflexivity |].
  rewrite (visit_same_target a s s' H). apply IH.
Qed.

Lemma analyze_ignores_expressions_witness :
  SemanticAnalyzer.analyze
    [DeclareVar "int" "x"; AssignExpr "int" "x" (Leaf "y")] =
  SemanticAnalyzer.analyze
    [DeclareVar "int" "x"; AssignExpr "int" "x" (Leaf "5")].
Proof.
  apply analyze_ignores_expressions.
  repeat constructor.
Defined.

(** ** The lexer *)

Section LexerRuns.

Import Lexer.

Lemma first_match_In rules prev s name lexeme rest :
  first_match rules prev s = Some (name, lexeme, rest) ->
  exists r, In (name, r) rules /\ r prev s = Some (lexeme, rest).
Proof.
  induction rules as [| [n0 r0] rules IH]; simpl; [discriminate |].
  destruct (r0 prev s) as [[l t]|] eqn:R.
  - intros [= <- <- <-]. eauto.
  - intros H. destruct (IH H) as (r & I & E). eauto.
Qed.

Lemma span_all f s a b : span f s = (a, b) -> forallb f a = true.
Proof.
  revert a b. induction s as [| c s IH]; simpl; intros a b.
  - intros [= <- <-]. reflexivity.
  - destruct (f c) eqn:Fc.
    + destruct (span f s) as [a' b']. intros [= <- <-].
      simpl. rewrite Fc. eapply IH. reflexivity.
    + intros [= <- <-]. reflexivity.
Qed.

Lemma span_whole f s : forallb f s = true -> span f s = (s, []).
Proof.
  induction s as [| c s IH]; simpl; [reflexivity |].
  intros H. apply andb_true_iff in H. destruct H as (Fc & Fs).
  rewrite Fc, (IH Fs). reflexivity.
Qed.

(** No rule matches the empty text. *)
Lemma first_match_productive prev s name rest :
  first_match token_spec prev s <> Some (name, [], rest).
Proof.
  intros H. apply first_match_In in H. destruct H as (r & I & E).
  unfold token_spec in I. simpl in I.
  repeat (destruct I as [I | I];
          [injection I as _ <-; revert E |]); try contradiction.
  - unfold rINCLUDE. destruct s as [| c s1]; [discriminate |].
    destruct (Ascii.eqb c "#"); [| discriminate].
    destruct (span is_space s1) as [ws1 s2].
    destruct (strip_prefix _ s2) as [s3|]; [| discriminate].
    destruct (span is_space s3) as [ws2 s4].
    destruct s4 as [| c4 s5]; [discriminate |].
    destruct (Ascii.eqb c4 "<"); [| discriminate].
    destruct (span not_gt s5) as [body s6].
    destruct body; [discriminate |]. destruct s6 as [| c6 s7]; [discriminate |].
    destruct (Ascii.eqb c6 ">"); discriminate.
  - unfold rKEYWORD. destruct (word_boundary _ _); [| discriminate].
    unfold keywords. cbn [first_keyword]. unfold keyword_at.
    repeat match goal with
           | |- context [strip_prefix (list_ascii_of_string ?k) s] =>
               destruct (strip_prefix (list_ascii_of_string k) s);
               [destruct (word_boundary _ _); [discriminate |] |]
           end; discriminate.
  - unfold rID. destruct (word_boundary prev _); [| discriminate].
    destruct s as [| c s1]; [discriminate |].
    destruct (is_id_start c); [| discriminate].
    destruct (span is_word s1) as [ws r1].
    destruct (word_boundary _ _); discriminate.
  - unfold rNUM. destruct (word_boundary prev _); [| discriminate].
    destruct (span is_digit s) as [ds r1].
    destruct ds as [| d ds]; [discriminate |]. cbv zeta.
    destruct r1 as [| c r2].
    + destruct (word_boundary _ _); discriminate.
    + destruct (Ascii.eqb c ".").
      * destruct (span is_digit r2) as [fs r3]. destruct fs.
        -- destruct (word_boundary _ _); discriminate.
        -- destruct (word_boundary (last_char (_ :: fs)) _); [discriminate |].
           destruct (word_boundary _ _); discriminate.
      * destruct (word_boundary _ _); discriminate.
  - unfold rSTRING. destruct s as [| c s1]; [discriminate |].
    destruct (Ascii.eqb c "034"); [| discriminate].
    destruct (span is_string_body s1) as [body r1].
    destruct r1 as [| q r1]; [discriminate |].
    destruct (Ascii.eqb q "034"); discriminate.
  - unfold one_of. destruct s; [discriminate |].
    destruct (is_op _); discriminate.
  - unfold one_of. destruct s; [discriminate |].
    destruct (Ascii.eqb _ _); discriminate.
  - unfold one_of. destruct s; [discriminate |].
    destruct (Ascii.eqb _ _); discriminate.
  - unfold one_of. destruct s; [discriminate |].
    destruct (Ascii.eqb _ _); discriminate.
  - unfold one_of. destruct s; [discriminate |].
    destruct (Ascii.eqb _ _); discriminate.
  - unfold one_of. destruct s; [discriminate |].
    destruct (Ascii.eqb _ _); discriminate.
  - unfold one_of. destruct s; [discriminate |].
    destruct (Ascii.eqb _ _); discriminate.
  - unfold one_of. destruct s; [discriminate |].
    destruct (is_delim _); discriminate.
  - unfold rSKIP. destruct (span is_skip s) as [ws r1].
    destruct ws; discriminate.
  - unfold one_of. destruct s; [discriminate |].
    destruct (not_newline _); discriminate.
Qed.

(** The match at a position, as a prefix of the text that is not empty. *)
Lemma first_match_split prev c s :
  exists name l rest,
    s = l ++ rest
    /\ first_match token_spec prev (c :: l ++ rest) = Some (name, c :: l, rest).
Proof.
  destruct (first_match token_spec prev (c :: s))
    as [[[name lexeme] rest]|] eqn:F;
    [| exfalso; exact (first_match_Some _ _ _ F)].
  pose proof (first_match_sound _ token_spec_sound _ _ _ _ _ F) as Sd.
  destruct lexeme as [| c0 l];
    [exfalso; exact (first_match_productive _ _ _ _ F) |].
  injection Sd as <- ->. exists name, l, rest. auto.
Qed.

Lemma match_is_skip prev s lexeme rest :
  first_match token_spec prev s = Some (SKIP, lexeme, rest) ->
  forallb is_skip lexeme = true.
Proof.
  intros H. apply first_match_In in H. destruct H as (r & I & E).
  unfold token_spec in I. simpl in I.
  repeat (destruct I as [I | I]; [try discriminate I |]); try contradiction.
  injection I as <-. unfold rSKIP in E.
  destruct (span is_skip s) as [ws r1] eqn:S. apply span_all in S.
  destruct ws; [discriminate |]. injection E as <- <-. exact S.
Qed.

Lemma match_is_mismatch prev c s lexeme rest :
  first_match token_spec prev (c :: s) = Some (MISMATCH, lexeme, rest) ->
  lexeme = [c].
Proof.
  intros H. apply first_match_In in H. destruct H as (r & I & E).
  unfold token_spec in I. simpl in I.
  repeat (destruct I as [I | I]; [try discriminate I |]); try contradiction.
  injection I as <-. unfold one_of in E.
  destruct (not_newline c); [| discriminate]. injection E as <- <-. reflexivity.
Qed.

Lemma visible_app a b : visible (a ++ b) = visible a ++ visible b.
Proof. unfold visible. apply filter_app. Qed.

Lemma visible_blank a : forallb is_skip a = true -> visible a = [].
Proof.
  unfold visible. induction a as [| c a IH]; simpl; [reflexivity |].
  intros H. apply andb_true_iff in H. destruct H as (Hc & Ha).
  rewrite Hc. simpl. auto.
Qed.

Lemma token_text_cons name lexeme toks :
  token_text (mkToken name (string_of_list_ascii lexeme) :: toks) =
  lexeme ++ token_text toks.
Proof.
  unfold token_text. simpl. rewrite list_ascii_of_string_of_list_ascii.
  reflexivity.
Qed.

Lemma value_not_empty c l : string_of_list_ascii (c :: l) <> EmptyString.
Proof. simpl. discriminate. Qed.

(** What a scan that returns has seen of the text, match by match. *)
Lemma scan_accounts n :
  forall s prev toks,
    List.length s <= n -> scan prev 0 s = Returned toks ->
    visible s = visible (token_text toks)
    /\ Forall (fun t => type t <> SKIP /\ type t <> MISMATCH
                        /\ value t <> EmptyString) toks.
Proof.
  induction n as [| n IH]; intros s prev toks L.
  - destruct s; [| simpl in L; lia]. intros [= <-]. split; [reflexivity | constructor].
  - destruct s as [| c s]; [intros [= <-]; split; [reflexivity | constructor] |].
    destruct (first_match_split prev c s) as (name & l & rest & -> & F).
    rewrite (scan_jump _ _ _ _ _ F).
    assert (Lr : List.length rest <= n)
      by (simpl in L; rewrite length_app in L; lia).
    change (c :: l ++ rest) with ((c :: l) ++ rest). rewrite visible_app.
    destruct name;
      try (destruct (scan (last_char (c :: l)) 0 rest) as [toks' | e] eqn:S;
           [| discriminate]; intros [= <-];
           destruct (IH _ _ _ Lr S) as (V & A);
           split;
           [ match goal with
             | |- context [token_text (?t :: toks')] =>
                 replace (token_text (t :: toks'))
                   with ((c :: l) ++ token_text toks')
                   by (symmetry; exact (token_text_cons _ (c :: l) toks'))
             end;
             rewrite visible_app, V; reflexivity
           | constructor; [| exact A]; cbn [type value];
             split; [discriminate | split; [discriminate |]];
             apply value_not_empty ]).
    + intros S. destruct (IH _ _ _ Lr S) as (V & A). split; [| exact A].
      rewrite (visible_blank _ (match_is_skip _ _ _ _ F)). exact V.
    + discriminate.
Qed.

(** A scan that raises names one character of the text. *)
Lemma scan_raises n :
  forall s prev e,
    List.length s <= n -> scan prev 0 s = Raised e ->
    exists c, In c s /\ e = unexpected [c].
Proof.
  induction n as [| n IH]; intros s prev e L.
  - destruct s; [discriminate | simpl in L; lia].
  - destruct s as [| c s]; [discriminate |].
    destruct (first_match_split prev c s) as (name & l & rest & -> & F).
    rewrite (scan_jump _ _ _ _ _ F).
    assert (Lr : List.length rest <= n)
      by (simpl in L; rewrite length_app in L; lia).
    assert (Sub : forall x, In x rest -> In x (c :: l ++ rest))
      by (intros x H; right; apply in_or_app; auto).
    destruct name;
      try (destruct (scan (last_char (c :: l)) 0 rest) as [toks' | e'] eqn:S;
           [discriminate |]; intros [= <-];
           destruct (IH _ _ _ Lr S) as (x & I & E); exists x; auto).
    intros [= <-]. exists c. split; [left; reflexivity |].
      rewrite (match_is_mismatch _ _ _ _ _ F). reflexivity.
Qed.

End LexerRuns.

Section Blanks.

Import Lexer.

(** At a blank only the [SKIP] rule matches, and it takes the whole run of
    blanks. *)
Lemma first_match_blank prev c s :
  is_skip c = true ->
  first_match token_spec prev (c :: s) =
  Some (SKIP, c :: fst (span is_skip s), snd (span is_skip s)).
Proof.
  intros B.
  assert (R : rSKIP prev (c :: s) =
              Some (c :: fst (span is_skip s), snd (span is_skip s))).
  { unfold rSKIP. simpl. rewrite B. destruct (span is_skip s). reflexivity. }
  unfold is_skip in B.
  destruct (Ascii.eqb_spec c " ") as [-> | _];
    [| destruct (Ascii.eqb_spec c "009") as [-> | _];
       [| destruct (Ascii.eqb_spec c "010") as [-> | _]; [| discriminate B]]];
    unfold token_spec; cbn [first_match]; rewrite R;
    unfold rKEYWORD, rID, rNUM;
    destruct (word_boundary prev _); reflexivity.
Qed.

Lemma scan_blank s :
  forallb is_skip s = true -> forall prev, scan prev 0 s = Returned [].
Proof.
  destruct s as [| c s]; [reflexivity |]. intros H prev. simpl in H.
  apply andb_true_iff in H. destruct H as (Hc & Hs).
  pose proof (first_match_blank prev c s Hc) as F.
  rewrite (span_whole _ _ Hs) in F. cbn [fst snd] in F.
  assert (F' : first_match token_spec prev (c :: s ++ []) = Some (SKIP, c :: s, []))
    by (rewrite app_nil_r; exact F).
  rewrite <- (app_nil_r s).
  rewrite (scan_jump _ _ _ _ _ F'). reflexivity.
Qed.

End Blanks.

(** X6.  The tokens that [tokenize] returns are never of the kinds [SKIP]
    or [MISMATCH], and none has an empty value. *)
Theorem tokenize_kinds (code : string) (toks : list Token) :
  Lexer.tokenize code = Returned toks ->
  Forall (fun t => type t <> SKIP /\ type t <> MISMATCH
                   /\ value t <> EmptyString) toks.
Proof.
  unfold Lexer.tokenize. intros H.
  apply (scan_accounts _ _ _ _ (le_n _) H).
Qed.

Lemma tokenize_kinds_witness :
  Forall (fun t => type t <> SKIP /\ type t <> MISMATCH
                   /\ value t <> EmptyString) partial_tokens.
Proof.
  exact (tokenize_kinds "int x = 5 + ;" partial_tokens eq_refl).
Defined.

(** X7.  [tokenize] loses nothing but blanks: when it returns, the text
    without its spaces, tabs and newlines is the text of the token values,
    one after the other, without theirs. *)
Theorem tokenize_keeps_text (code : string) (toks : list Token) :
  Lexer.tokenize code = Returned toks ->
  visible (list_ascii_of_string code) = visible (token_text toks).
Proof.
  unfold Lexer.tokenize. intros H.
  apply (scan_accounts _ _ _ _ (le_n _) H).
Qed.

Lemma tokenize_keeps_text_witness :
  visible (list_ascii_of_string "int x = 5 + ;") =
  visible (token_text partial_tokens).
Proof.
  exact (tokenize_keeps_text "int x = 5 + ;" partial_tokens eq_refl).
Defined.

(** X8.  The only exception of [tokenize] is the [RuntimeError] whose
    message is ["Unexpected character: "] followed by one character, and
    that character occurs in the source. *)
Theorem tokenize_error (code : string) (e : exn) :
  Lexer.tokenize code = Raised e ->
  exists c,
    In c (list_ascii_of_string code)
    /\ e = RuntimeError ("Unexpected character: " ++ String c EmptyString).
Proof.
  unfold Lexer.tokenize. intros H.
  apply (scan_raises _ _ _ _ (le_n _) H).
Qed.

Lemma tokenize_error_witness :
  exists c,
    In c (list_ascii_of_string "x = 1.")
    /\ RuntimeError "Unexpected character: ." =
       RuntimeError ("Unexpected character: " ++ String c EmptyString).
Proof.
  exact (tokenize_error "x = 1." (RuntimeError "Unexpected character: .")
           eq_refl).
Defined.

(** X9.  A source of spaces, tabs and newlines only, the empty source
    among them, gives no token and no error. *)
Theorem tokenize_blank (code : string) :
  forallb Lexer.is_skip (list_ascii_of_string code) = true ->
  Lexer.tokenize code = Returned [].
Proof.
  intros H. unfold Lexer.tokenize. apply scan_blank, H.
Qed.

Lemma tokenize_blank_witness :
  Lexer.tokenize (String " " (String "010" (String "009" EmptyString))) =
  Returned [].
Proof.
  apply tokenize_blank. reflexivity.
Defined.

Section Words.

Import Lexer.

Lemma strip_prefix_self l : strip_prefix l l = Some [].
Proof.
  induction l as [| a l IH]; simpl; [reflexivity |].
  rewrite Ascii.eqb_refl. exact IH.
Qed.

Lemma last_word l :
  forall d, forallb is_word l = true -> is_word d = true ->
            is_word (last l d) = true.
Proof.
  induction l as [| a l IH]; intros d H D; [exact D |].
  simpl in H. apply andb_true_iff in H. destruct H as (Ha & Hl).
  destruct l as [| b l]; [exact Ha |].
  change (last (a :: b :: l) d) with (last (b :: l) d). apply IH; auto.
Qed.

Lemma last_char_word l :
  l <> [] -> forallb is_word l = true -> opt_word (last_char l) = true.
Proof.
  destruct l as [| c l]; [congruence |]. intros _ H. cbn [last_char opt_word].
  apply last_word; [exact H |].
  simpl in H. apply andb_true_iff in H. tauto.
Qed.

(** On a text of word characters a keyword matches only the whole text. *)
Lemma keyword_at_word s k :
  forallb is_word s = true -> s <> [] -> k <> EmptyString ->
  keyword_at s k =
  if String.eqb (string_of_list_ascii s) k then Some (s, []) else None.
Proof.
  intros W N Nk. unfold keyword_at.
  destruct (String.eqb_spec (string_of_list_ascii s) k) as [E | E].
  - subst k. rewrite list_ascii_of_string_of_list_ascii, strip_prefix_self.
    unfold word_boundary. rewrite (last_char_word s N W). reflexivity.
  - destruct (strip_prefix (list_ascii_of_string k) s) as [r|] eqn:P;
      [| reflexivity].
    apply strip_prefix_sound in P.
    destruct r as [| c r].
    + exfalso. apply E. rewrite P, app_nil_r.
      apply string_of_list_ascii_of_string.
    + assert (Wk : forallb is_word (list_ascii_of_string k) = true
                   /\ is_word c = true).
      { rewrite P, forallb_app in W. apply andb_true_iff in W.
        destruct W as (W1 & W2). simpl in W2. apply andb_true_iff in W2.
        tauto. }
      destruct Wk as (Wk & Wc). unfold word_boundary. simpl. rewrite Wc.
      destruct (opt_word (last_char (list_ascii_of_string k))) eqn:L;
        [reflexivity |].
      destruct (list_ascii_of_string k) as [| a kl] eqn:K.
      * exfalso. apply Nk. destruct k; [reflexivity | discriminate K].
      * rewrite last_char_word in L; [discriminate | discriminate | exact Wk].
Qed.

Lemma first_keyword_word s ks :
  forallb is_word s = true -> s <> [] ->
  Forall (fun k => k <> EmptyString) ks ->
  first_keyword s ks =
  if existsb (String.eqb (string_of_list_ascii s)) ks then Some (s, []) else None.
Proof.
  intros W N. induction 1 as [| k ks Nk _ IH]; simpl; [reflexivity |].
  rewrite (keyword_at_word s k W N Nk).
  destruct (String.eqb (string_of_list_ascii s) k); simpl; auto.
Qed.

Lemma keywords_not_empty : Forall (fun k => k <> EmptyString) keywords.
Proof. unfold keywords. repeat constructor; discriminate. Qed.

Lemma id_start_word c : is_id_start c = true -> is_word c = true.
Proof. unfold is_word. intros ->. reflexivity. Qed.

Lemma first_match_word prev c ws :
  opt_word prev = false ->
  is_id_start c = true -> forallb is_word ws = true ->
  first_match token_spec prev (c :: ws) =
  Some (if existsb (String.eqb (string_of_list_ascii (c :: ws))) keywords
        then KEYWORD else ID, c :: ws, []).
Proof.
  intros Pv Ic W. pose proof (id_start_word c Ic) as Wc.
  assert (Wa : forallb is_word (c :: ws) = true) by (simpl; rewrite Wc; exact W).
  unfold token_spec; cbn [first_match].
  replace (rINCLUDE prev (c :: ws)) with (@None (list ascii * list ascii)).
  2:{ unfold rINCLUDE. destruct (Ascii.eqb_spec c "#") as [-> |]; [| reflexivity].
      discriminate Ic. }
  unfold rKEYWORD, word_boundary. cbn [hd_error opt_word]. rewrite Pv, Wc.
  cbn [xorb].
  rewrite (first_keyword_word (c :: ws) keywords Wa ltac:(discriminate)
             keywords_not_empty).
  destruct (existsb _ keywords); [reflexivity |].
  unfold rID, word_boundary. cbn [hd_error opt_word]. rewrite Pv, Wc, Ic.
  cbn [xorb]. rewrite (span_whole _ _ W).
  rewrite (last_char_word (c :: ws) ltac:(discriminate) Wa). reflexivity.
Qed.

End Words.

(** X10.  A source that is one word, a letter or an underscore followed by
    word characters, is one token with the word as its value: a [KEYWORD]
    when the word is one of the sixteen reserved words, an [ID] otherwise,
    also when a reserved word is only its beginning. *)
Theorem tokenize_word (w : string) :
  is_identifier (list_ascii_of_string w) = true ->
  Lexer.tokenize w =
  Returned [mkToken (if is_keyword w then KEYWORD else ID) w].
Proof.
  unfold Lexer.tokenize, is_identifier, is_keyword.
  destruct (list_ascii_of_string w) as [| c ws] eqn:E; [discriminate |].
  intros H. apply andb_true_iff in H. destruct H as (Ic & W).
  pose proof (first_match_word None c ws eq_refl Ic W) as F.
  assert (V : string_of_list_ascii (c :: ws) = w)
    by (rewrite <- E; apply string_of_list_ascii_of_string).
  rewrite V in F.
  assert (F' : Lexer.first_match Lexer.token_spec None (c :: ws ++ []) =
               Some (if existsb (String.eqb w) Lexer.keywords
                     then KEYWORD else ID, c :: ws, []))
    by (rewrite app_nil_r; exact F).
  rewrite <- (app_nil_r ws).
  rewrite (scan_jump _ _ _ _ _ F'). rewrite V.
  destruct (existsb (String.eqb w) Lexer.keywords); reflexivity.
Qed.

Lemma tokenize_word_witness :
  Lexer.tokenize "integer" = Returned [mkToken ID "integer"]
  /\ Lexer.tokenize "int" = Returned [mkToken KEYWORD "int"].
Proof.
  split.
  - exact (tokenize_word "integer" eq_refl).
  - exact (tokenize_word "int" eq_refl).
Defined.

(** ** The expression grammar *)

Section Expressions.

Import Parser.

Lemma hd_skipn {A : Type} (l : list A) :
  forall n, hd_error (skipn n l) = nth_error l n.
Proof.
  induction l as [| a l IH]; intros [| n]; simpl; auto.
Qed.

Lemma tl_skipn {A : Type} (l : list A) :
  forall n, skipn (n + 1) l = tl (skipn n l).
Proof.
  induction l as [| a l IH]; intros [| n]; simpl; auto.
Qed.

Lemma ahead_current p : current p = hd_error (ahead p).
Proof. unfold current, ahead. symmetry. apply hd_skipn. Qed.

Lemma ahead_advance p : ahead (advance p) = tl (ahead p).
Proof. unfold ahead, advance. simpl. apply tl_skipn. Qed.

(** [match('OP', a) or match('OP', b)] by the token at the cursor. *)
Lemma match_or_operator a b p :
  match_or OP (Some a) OP (Some b) p =
  match hd_error (ahead p) with
  | Some t => if is_operator a b t then (Some t, advance p) else (None, p)
  | None => (None, p)
  end.
Proof.
  rewrite <- ahead_current. unfold match_or, match_, is_operator.
  destruct (current p) as [t|] eqn:C; [| simpl; rewrite C; reflexivity].
  destruct (kind_eqb (type t) OP) eqn:K;
    destruct (String.eqb (value t) a) eqn:Ea;
    destruct (String.eqb (value t) b) eqn:Eb;
    simpl; rewrite ?C, ?K, ?Ea, ?Eb; simpl; reflexivity.
Qed.

Lemma factor_leaf n p t r :
  ahead p = t :: r -> is_leaf t = true ->
  factor (S n) p = Some (Leaf (value t), advance p).
Proof.
  intros A L. simpl. rewrite ahead_current, A. simpl.
  unfold is_leaf in L. rewrite L. reflexivity.
Qed.

(** An operator of one level is none of the other. *)
Lemma operator_levels t :
  is_operator "+" "-" t = true -> is_operator "*" "/" t = false.
Proof.
  unfold is_operator. destruct (kind_eqb (type t) OP); simpl; [| auto].
  destruct (String.eqb_spec (value t) "+") as [-> | _]; [reflexivity |].
  destruct (String.eqb_spec (value t) "-") as [-> | _]; [reflexivity |].
  discriminate.
Qed.

(** The loop of [mul_div] over the operators and leaves of a product. *)
Lemma mul_div_loop_product l :
  forall n node p post e p',
    Forall (fun ot => is_operator "*" "/" (fst ot) = true
                      /\ is_leaf (snd ot) = true) l ->
    ahead p = flat_map (fun ot => [fst ot; snd ot]) l ++ post ->
    match post with
    | [] => True
    | t :: _ => is_operator "*" "/" t = false
    end ->
    mul_div_loop n node p = Some (e, p') ->
    e = fold_left
          (fun acc ot => BinOp (value (fst ot)) acc (Leaf (value (snd ot))))
          l node
    /\ ahead p' = post.
Proof.
  induction l as [| [o t] l IH]; intros n node p post e p' W A E;
    (destruct n as [| n]; [discriminate |]); simpl;
    rewrite match_or_operator, A; simpl.
  - destruct post as [| t post]; simpl.
    + intros [= <- <-]. auto.
    + rewrite E. intros [= <- <-]. auto.
  - inversion W as [| x y (Wo & Wt) W']; subst. simpl in Wo, Wt. rewrite Wo.
    assert (A1 : ahead (advance p) =
                 t :: flat_map (fun ot => [fst ot; snd ot]) l ++ post)
      by (rewrite ahead_advance, A; reflexivity).
    destruct n as [| n]; [discriminate |].
    rewrite (factor_leaf n _ _ _ A1 Wt).
    apply IH; auto.
    rewrite ahead_advance, A1. reflexivity.
Qed.

Lemma mul_div_product pr :
  forall n p post e p',
    product_ok pr ->
    ahead p = product_tokens pr ++ post ->
    match post with
    | [] => True
    | t :: _ => is_operator "*" "/" t = false
    end ->
    mul_div n p = Some (e, p') ->
    e = product_tree pr /\ ahead p' = post.
Proof.
  destruct pr as [t0 l]. unfold product_ok, product_tokens, product_tree.
  simpl. intros n p post e p' (W0 & W) A E.
  destruct n as [| [| n]]; try discriminate.
  change (mul_div (S (S n)) p)
    with (match factor (S n) p with
          | Some (node, p1) => mul_div_loop (S n) node p1
          | None => None
          end).
  rewrite (factor_leaf n _ _ _ A W0).
  apply mul_div_loop_product; auto.
  rewrite ahead_advance, A. reflexivity.
Qed.

(** The loop of [add_sub] over the operators and products of a sum. *)
Lemma add_sub_loop_sum l :
  forall n node p post e p',
    Forall (fun op => is_operator "+" "-" (fst op) = true
                      /\ product_ok (snd op)) l ->
    ahead p = flat_map (fun op => fst op :: product_tokens (snd op)) l ++ post ->
    ends_expression post ->
    add_sub_loop n node p = Some (e, p') ->
    e = fold_left
          (fun acc op => BinOp (value (fst op)) acc (product_tree (snd op)))
          l node
    /\ ahead p' = post.
Proof.
  induction l as [| [o pr] l IH]; intros n node p post e p' W A E;
    (destruct n as [| n]; [discriminate |]); simpl;
    rewrite match_or_operator, A.
  - simpl. destruct post as [| t post]; simpl.
    + intros [= <- <-]. auto.
    + destruct E as (E & _). rewrite E. intros [= <- <-]. auto.
  - inversion W as [| x y (Wo & Wp) W']; subst. simpl in Wo, Wp.
    cbn [flat_map fst snd app hd_error]. rewrite Wo.
    destruct (mul_div n (advance p)) as [[r p2]|] eqn:M; [| discriminate].
    assert (M' : r = product_tree pr
                 /\ ahead p2 =
                    flat_map (fun op => fst op :: product_tokens (snd op)) l
                    ++ post).
    { apply (mul_div_product pr n (advance p) _ r p2 Wp).
      - rewrite ahead_advance, A. cbn [flat_map fst snd]. simpl.
        rewrite <- app_assoc. reflexivity.
      - destruct l as [| [o' pr'] l]; simpl.
        + destruct post; [exact I | apply E].
        + inversion W' as [| x y (Wo' & _) _]; subst.
          apply operator_levels, Wo'.
      - exact M. }
    destruct M' as (-> & A2). apply IH; auto.
Qed.

Lemma add_sub_sum sm :
  forall n p post e p',
    sum_ok sm ->
    ahead p = sum_tokens sm ++ post ->
    ends_expression post ->
    add_sub n p = Some (e, p') ->
    e = sum_tree sm /\ ahead p' = post.
Proof.
  destruct sm as [pr l]. unfold sum_ok, sum_tokens, sum_tree. simpl.
  intros n p post e p' (W0 & W) A E.
  destruct n as [| n]; [discriminate |]. simpl.
  destruct (mul_div n p) as [[node p1]|] eqn:M; [| discriminate].
  assert (M' : node = product_tree pr
               /\ ahead p1 =
                  flat_map (fun op => fst op :: product_tokens (snd op)) l
                  ++ post).
  { apply (mul_div_product pr n p _ node p1 W0).
    - rewrite A, <- app_assoc. reflexivity.
    - destruct l as [| [o' pr'] l]; simpl.
      + destruct post; [exact I | apply E].
      + inversion W as [| x y (Wo' & _) _]; subst.
        apply operator_levels, Wo'.
    - exact M. }
  destruct M' as (-> & A1). apply add_sub_loop_sum; auto.
Qed.

End Expressions.

(** X11.  [expression] never appends a node and never records a
    diagnostic, and the cursor does not go back: whenever it returns, from
    any cursor in any tokens, the tokens, the tree and the diagnostics of
    the parser are the ones it found.  A missing operand or an unbalanced
    parenthesis is so not reported by the grammar itself. *)
Theorem expression_reports_nothing (fuel : nat) (p : Parser.t) (e : expr)
  (p' : Parser.t) :
  Parser.expression fuel p = Some (e, p') ->
  Parser.tokens p' = Parser.tokens p
  /\ Parser.ast p' = Parser.ast p
  /\ Parser.errors p' = Parser.errors p
  /\ Parser.pos p <= Parser.pos p'.
Proof. intros E. apply (expression_frame _ _ _ _ E). Qed.

Lemma expression_reports_nothing_witness :
  Parser.tokens (Parser.mk [mkToken LPAREN "("; mkToken NUM "5"] 2 [] []) =
    [mkToken LPAREN "("; mkToken NUM "5"]
  /\ Parser.ast (Parser.mk [mkToken LPAREN "("; mkToken NUM "5"] 2 [] []) = []
  /\ Parser.errors (Parser.mk [mkToken LPAREN "("; mkToken NUM "5"] 2 [] []) = []
  /\ 0 <= 2.
Proof.
  exact (expression_reports_nothing 20
           (Parser.init [mkToken LPAREN "("; mkToken NUM "5"]) (Leaf "5")
           (Parser.mk [mkToken LPAREN "("; mkToken NUM "5"] 2 [] [])
           eq_refl).
Defined.

(** X12.  On an expression without parentheses, leaves joined by [*] and
    [/] into products and products joined by [+] and [-], that is not
    followed by another operator, [expression] returns the tree in which
    every product is a subtree and the operators of each level are applied
    from left to right; the cursor is left right after the expression and
    nothing is recorded. *)
Theorem expression_sum (sm : sum) (p : Parser.t) (post : list Token) :
  sum_ok sm ->
  ahead p = sum_tokens sm ++ post ->
  ends_expression post ->
  exists p',
    (forall fuel, 4 * Parser.remaining p + 3 <= fuel ->
                  Parser.expression fuel p = Some (sum_tree sm, p'))
    /\ ahead p' = post
    /\ Parser.ast p' = Parser.ast p
    /\ Parser.errors p' = Parser.errors p.
Proof.
  intros W A E.
  destruct (proj1 (proj2 (expr_enough (4 * Parser.remaining p + 3))) p (le_n _))
    as ([e p'] & X).
  destruct (add_sub_sum sm _ p post e p' W A E X) as (-> & A').
  exists p'. split; [| split; [exact A' |]].
  - intros fuel Hf. unfold Parser.expression.
    apply (proj1 (proj2 (expr_mono _ fuel Hf))). exact X.
  - apply (expr_frame _) in X. destruct X as (_ & Xa & Xe & _). auto.
Qed.

Lemma expression_sum_witness :
  exists p',
    Parser.expression 40
      (Parser.init [mkToken NUM "8"; mkToken OP "-"; mkToken NUM "3";
                    mkToken OP "-"; mkToken ID "a"; mkToken OP "/";
                    mkToken NUM "2"; mkToken DELIM ";"]) =
    Some (BinOp "-" (BinOp "-" (Leaf "8") (Leaf "3"))
            (BinOp "/" (Leaf "a") (Leaf "2")), p')
    /\ ahead p' = [mkToken DELIM ";"].
Proof.
  destruct (expression_sum
              ((mkToken NUM "8", []),
               [(mkToken OP "-", (mkToken NUM "3", []));
                (mkToken OP "-",
                 (mkToken ID "a", [(mkToken OP "/", mkToken NUM "2")]))])
              (Parser.init [mkToken NUM "8"; mkToken OP "-"; mkToken NUM "3";
                            mkToken OP "-"; mkToken ID "a"; mkToken OP "/";
                            mkToken NUM "2"; mkToken DELIM ";"])
              [mkToken DELIM ";"])
    as (p' & E & A & _).
  - repeat (split || constructor).
  - reflexivity.
  - split; reflexivity.
  - exists p'. split; [| exact A]. apply E. vm_compute. lia.
Defined.

(** ** The diagnostics of the parser *)

Section Diagnostics.

Import Parser.

Lemma reports_refl p : reports p p.
Proof. exists []. rewrite app_nil_r. auto. Qed.

Lemma reports_same p p' : errors p' = errors p -> reports p p'.
Proof. intros E. exists []. rewrite app_nil_r. auto. Qed.

Lemma reports_trans p q r : reports p q -> reports q r -> reports p r.
Proof.
  intros (n1 & E1 & F1) (n2 & E2 & F2). exists (n1 ++ n2).
  rewrite E2, E1, app_assoc. split; [reflexivity |].
  apply Forall_app. auto.
Qed.

Lemma reports_one p p' msg :
  errors p' = errors p ++ [msg] -> In msg syntax_messages -> reports p p'.
Proof. intros E I. exists [msg]. auto. Qed.

Lemma reports_error p msg :
  In msg syntax_messages -> reports p (append_error p msg).
Proof. intros I. apply reports_one with msg; auto. Qed.

Lemma frame_reports p p' : frame p p' -> reports p p'.
Proof. intros (_ & _ & E & _). apply reports_same, E. Qed.

Ltac known := unfold syntax_messages; simpl; tauto.

Lemma statement_reports fuel p p' : statement fuel p = Some p' -> reports p p'.
Proof.
  unfold statement. destruct (declaration p) as [q | [[ty id] q]] eqn:D.
  - intros [= <-]. apply declaration_inl in D.
    destruct D as (_ & _ & _ & [E | E]); apply (reports_one _ _ _ E); known.
  - intros H. apply declaration_inr in D. apply statement_assign_spec in H.
    destruct D as (_ & _ & Ed & _).
    assert (R : reports q p').
    { destruct H as (_ & _ & [(_ & [E | [E | E]]) | (e & _ & _ & [E | E])]);
        try (apply reports_same, E);
        apply (reports_one _ _ _ E); known. }
    apply reports_trans with q; [apply reports_same, Ed | exact R].
Qed.

Lemma printf_statement_reports p : reports p (printf_statement p).
Proof.
  unfold printf_statement.
  destruct (match_ KEYWORD (Some "printf") p) as [o0 p0] eqn:E0.
  apply match_frame, frame_reports in E0.
  destruct (match_ LPAREN None p0) as [o1 p1] eqn:E1.
  apply match_frame, frame_reports in E1.
  assert (R1 : reports p p1) by eauto using reports_trans.
  destruct o1;
    [| apply reports_trans with p1; [exact R1 | apply reports_error; known]].
  destruct (match_ STRING None p1) as [o2 p2] eqn:E2.
  apply match_frame, frame_reports in E2.
  assert (R2 : reports p p2) by eauto using reports_trans.
  destruct o2;
    [| apply reports_trans with p2; [exact R2 | apply reports_error; known]].
  destruct (match_ RPAREN None p2) as [o3 p3] eqn:E3.
  apply match_frame, frame_reports in E3.
  assert (R3 : reports p p3) by eauto using reports_trans.
  destruct o3;
    [| apply reports_trans with p3; [exact R3 | apply reports_error; known]].
  destruct (match_ DELIM None p3) as [o4 p4] eqn:E4.
  apply match_frame, frame_reports in E4.
  assert (R4 : reports p p4) by eauto using reports_trans.
  destruct o4;
    [| apply reports_trans with p4; [exact R4 | apply reports_error; known]].
  apply reports_trans with p4; [exact R4 | apply reports_same; reflexivity].
Qed.

Lemma function_body_reports n :
  forall p p', function_body n p = Some p' -> reports p p'.
Proof.
  induction n as [| n IH]; simpl; intros p p'; [discriminate |].
  destruct (current p) as [token|]; [| intros [= <-]; apply reports_refl].
  destruct (kind_eqb (type token) RBRACE); [intros [= <-]; apply reports_refl |].
  destruct (is_printf token).
  - intros H. eapply reports_trans; [apply printf_statement_reports | eauto].
  - destruct (statement n p) as [p1|] eqn:St; [| discriminate].
    intros H. eapply reports_trans; [eapply statement_reports |]; eauto.
Qed.

Lemma function_definition_reports n p p' :
  function_definition n p = Some p' -> reports p p'.
Proof.
  unfold function_definition.
  destruct (match_ KEYWORD None p) as [o1 p1] eqn:E1.
  destruct (match_or KEYWORD None ID None p1) as [o2 p2] eqn:E2.
  destruct (match_ LPAREN None p2) as [o3 p3] eqn:E3.
  destruct (match_ RPAREN None p3) as [o4 p4] eqn:E4.
  destruct (match_ LBRACE None p4) as [o5 p5] eqn:E5.
  apply match_frame in E1, E3, E4, E5. apply match_or_frame in E2.
  assert (F : reports p p5).
  { apply frame_reports. eauto 6 using frame_trans. }
  destruct o5.
  - destruct (function_body n p5) as [p6|] eqn:B; [| discriminate].
    apply function_body_reports in B.
    destruct (match_ RBRACE None p6) as [o7 p7] eqn:E7.
    apply match_frame, frame_reports in E7.
    assert (R : reports p p7) by eauto using reports_trans.
    destruct o7; intros [= <-]; [exact R |].
    apply reports_trans with p7; [exact R | apply reports_error; known].
  - intros [= <-].
    apply reports_trans with p5; [exact F | apply reports_error; known].
Qed.

Lemma parse_step_reports n token p p' :
  parse_step n token p = Some p' -> reports p p'.
Proof.
  unfold parse_step.
  destruct (kind_eqb (type token) INCLUDE);
    [intros [= <-]; apply reports_same; reflexivity |].
  destruct (kind_eqb (type token) KEYWORD);
    [destruct (lookahead_is_function p);
       [| destruct (String.eqb (value token) "printf")] |];
    eauto using function_definition_reports, statement_reports.
  intros [= <-]. apply printf_statement_reports.
Qed.

Lemma parse_loop_reports n :
  forall p p', parse_loop n p = Some p' -> reports p p'.
Proof.
  induction n as [| n IH]; simpl; intros p p'; [discriminate |].
  destruct (Nat.ltb (pos p) (List.length (tokens p)));
    [| intros [= <-]; apply reports_refl].
  destruct (current p) as [token|]; [| intros [= <-]; apply reports_refl].
  destruct (parse_step n token p) as [p1|] eqn:St; [| discriminate].
  apply parse_step_reports in St. intros H. eapply reports_trans; eauto.
Qed.

(** The loop of [parse] on tokens that are all includes. *)
Lemma parse_loop_includes n :
  forall p p',
    Forall (fun t => type t = INCLUDE) (ahead p) ->
    parse_loop n p = Some p' ->
    ast p' = ast p ++ map (fun t => Include (value t)) (ahead p)
    /\ errors p' = errors p.
Proof.
  induction n as [| n IH]; simpl; intros p p' F; [discriminate |].
  destruct (Nat.ltb (pos p) (List.length (tokens p))) eqn:L.
  - rewrite ahead_current.
    destruct (ahead p) as [| t r] eqn:A; simpl.
    + intros [= <-]. rewrite app_nil_r. auto.
    + inversion F as [| x y T F']; subst.
      unfold parse_step. rewrite T. simpl.
      intros H. apply IH in H.
      * simpl in H. rewrite ahead_advance in H.
        unfold ahead in A, H. simpl in H. rewrite A in H. simpl in H.
        rewrite <- app_assoc in H. exact H.
      * rewrite ahead_advance. unfold ahead in *. simpl. rewrite A. exact F'.
  - intros [= <-]. apply Nat.ltb_ge in L.
    unfold ahead. rewrite skipn_all2 by exact L. simpl.
    rewrite app_nil_r. auto.
Qed.

End Diagnostics.

(** X13.  Tokens that are all of the kind [INCLUDE] parse to one include
    node for each of them, in their order, with no diagnostic. *)
Theorem parse_includes (toks : list Token) :
  Forall (fun t => type t = INCLUDE) toks ->
  Parser.parse toks = Some (map (fun t => Include (value t)) toks, []).
Proof.
  intros F. destruct (parse_total toks) as ([a errs] & P). rewrite P.
  unfold Parser.parse, Parser.parse_with in P.
  destruct (Parser.parse_loop (Parser.budget toks) (Parser.init toks))
    as [p'|] eqn:L; [| discriminate].
  injection P as <- <-.
  destruct (parse_loop_includes _ (Parser.init toks) _ F L) as (A & E).
  rewrite A, E. reflexivity.
Qed.

Lemma parse_includes_witness :
  Parser.parse [mkToken INCLUDE "#include <stdio.h>";
                mkToken INCLUDE "#include <math.h>"] =
  Some ([Include "#include <stdio.h>"; Include "#include <math.h>"], []).
Proof.
  apply (parse_includes [mkToken INCLUDE "#include <stdio.h>";
                         mkToken INCLUDE "#include <math.h>"]).
  repeat constructor.
Defined.

(** X14.  Every diagnostic of [parse] is one of ten fixed strings, each
    starting with ["Syntax Error: "]: the parser never records anything
    else, whatever the tokens. *)
Theorem parse_messages (toks : list Token) :
  exists ast syntax_errors,
    Parser.parse toks = Some (ast, syntax_errors)
    /\ Forall (fun msg => In msg syntax_messages) syntax_errors.
Proof.
  destruct (parse_total toks) as ([a errs] & P). exists a, errs.
  split; [exact P |].
  unfold Parser.parse, Parser.parse_with in P.
  destruct (Parser.parse_loop (Parser.budget toks) (Parser.init toks))
    as [p'|] eqn:L; [| discriminate].
  injection P as <- <-.
  destruct (parse_loop_reports _ _ _ L) as (new & E & F).
  rewrite E. exact F.
Qed.

(** X16.  Whenever [handle_expr] returns on an operator node, it has
    returned on both operands, left before right; what it returns is the
    name of the temporary it allocated last, the one numbered by the
    counter before the call plus the operator nodes of the expression, and
    the last line it appended defines that temporary from the values of the
    two operands. *)
Theorem handle_expr_value (op : string) (l r : expr) (g : ICG.t)
  (v : string) :
  fst (ICG.handle_expr (BinOp op l r) g) = Returned v ->
  v = ICG.temp_name (ICG.temp_count g + binops (BinOp op l r))
  /\ exists vl vr g1 g2,
       ICG.handle_expr l g = (Returned vl, g1)
       /\ ICG.handle_expr r g1 = (Returned vr, g2)
       /\ ICG.handle_expr (BinOp op l r) g =
          (Returned v,
           ICG.mk (ICG.code g2
                   ++ [v ++ " = " ++ vl ++ " " ++ op ++ " " ++ vr]%string)
                  (ICG.temp_count g + binops (BinOp op l r))).
Proof.
  intros R.
  assert (N : contains_none (BinOp op l r) = false).
  { destruct (contains_none (BinOp op l r)) eqn:N; [| reflexivity].
    rewrite (handle_expr_partial _ N g) in R. discriminate R. }
  simpl in N, R |- *. apply orb_false_iff in N. destruct N as (Nl & Nr).
  destruct (handle_expr_complete l Nl g) as (vl & g1 & El & _ & Tl).
  destruct (handle_expr_complete r Nr g1) as (vr & g2 & Er & _ & Tr).
  rewrite El, Er in R |- *. unfold ICG.new_temp, ICG.emit in R |- *.
  simpl in R |- *. injection R as <-.
  replace (ICG.temp_count g + (binops l + binops r + 1))
    with (ICG.temp_count g2 + 1) by lia.
  split; [reflexivity |]. exists vl, vr, g1, g2. auto.
Qed.

Lemma handle_expr_value_witness :
  "t2" = ICG.temp_name (0 + 2)
  /\ exists vl vr g1 g2,
       ICG.handle_expr (Leaf "2") ICG.init = (Returned vl, g1)
       /\ ICG.handle_expr (BinOp "*" (Leaf "3") (Leaf "4")) g1 =
          (Returned vr, g2)
       /\ ICG.handle_expr
            (BinOp "+" (Leaf "2") (BinOp "*" (Leaf "3") (Leaf "4"))) ICG.init =
          (Returned "t2",
           ICG.mk (ICG.code g2
                   ++ ["t2" ++ " = " ++ vl ++ " " ++ "+" ++ " " ++ vr]%string)
             (0 + 2)).
Proof.
  exact (handle_expr_value "+" (Leaf "2") (BinOp "*" (Leaf "3") (Leaf "4"))
           ICG.init "t2" eq_refl).
Defined.

Section MainAsName.

Import Parser.

Lemma match_ahead type_ p :
  match_ type_ None p =
  match hd_error (ahead p) with
  | Some t => if kind_eqb (type t) type_ then (Some t, advance p) else (None, p)
  | None => (None, p)
  end.
Proof.
  rewrite match_any, ahead_current. unfold has_kind.
  destruct (hd_error (ahead p)); reflexivity.
Qed.

Lemma lookahead_ahead p :
  lookahead_is_function p =
  match hd_error (ahead (advance p)) with
  | Some token =>
      (kind_eqb (type token) ID || kind_eqb (type token) KEYWORD)
      && String.eqb (value token) "main"
  | None => false
  end.
Proof. rewrite <- ahead_current. reflexivity. Qed.

End MainAsName.

(** X17.  A keyword followed by a token [main], identifier or keyword, is
    always taken for a function definition, also where a variable named
    [main] is declared: when no parenthesis and no [{] follows, the two
    tokens are passed, no node is appended and the one diagnostic is
    ["Syntax Error: Missing '{' in function"]. *)
Theorem main_is_a_function (fuel : nat) (p : Parser.t) (k m : Token)
  (post : list Token) :
  ahead p = k :: m :: post ->
  type k = KEYWORD ->
  type m = ID \/ type m = KEYWORD ->
  value m = "main" ->
  match post with
  | [] => True
  | t :: _ => type t <> LPAREN /\ type t <> RPAREN /\ type t <> LBRACE
  end ->
  Parser.parse_step fuel k p =
  Some (Parser.mk (Parser.tokens p) (Parser.pos p + 1 + 1) (Parser.ast p)
          (Parser.errors p ++ ["Syntax Error: Missing '{' in function"])).
Proof.
  intros A Tk Tm Vm E.
  assert (A1 : ahead (Parser.advance p) = m :: post)
    by (rewrite ahead_advance, A; reflexivity).
  assert (A2 : ahead (Parser.advance (Parser.advance p)) = post)
    by (rewrite ahead_advance, A1; reflexivity).
  unfold Parser.parse_step. rewrite Tk. cbn [kind_eqb].
  replace (kind_eqb KEYWORD INCLUDE) with false by reflexivity.
  replace (kind_eqb KEYWORD KEYWORD) with true by reflexivity.
  rewrite lookahead_ahead, A1. cbn [hd_error]. rewrite Vm.
  replace (kind_eqb (type m) ID || kind_eqb (type m) KEYWORD) with true
    by (destruct Tm as [-> | ->]; reflexivity).
  cbn [andb String.eqb].
  replace (String.eqb "main" "main") with true by reflexivity.
  unfold Parser.function_definition.
  rewrite match_ahead, A. cbn [hd_error]. rewrite Tk.
  replace (kind_eqb KEYWORD KEYWORD) with true by reflexivity.
  assert (M : Parser.match_or KEYWORD None ID None (Parser.advance p) =
              (Some m, Parser.advance (Parser.advance p))).
  { unfold Parser.match_or. rewrite match_ahead, A1. cbn [hd_error].
    destruct Tm as [Tm | Tm]; rewrite Tm; [| reflexivity].
    replace (kind_eqb ID KEYWORD) with false by reflexivity. cbv iota beta.
    rewrite match_ahead, A1. cbn [hd_error]. rewrite Tm. reflexivity. }
  rewrite M.
  assert (N : forall ty, ty = LPAREN \/ ty = RPAREN \/ ty = LBRACE ->
                Parser.match_ ty None (Parser.advance (Parser.advance p)) =
                (None, Parser.advance (Parser.advance p))).
  { intros ty Hty. rewrite match_ahead, A2.
    destruct post as [| t post]; [reflexivity |]. cbn [hd_error].
    destruct E as (E1 & E2 & E3). unfold kind_eqb.
    destruct (kind_eq_dec (type t) ty) as [Eq |]; [| reflexivity].
    exfalso. destruct Hty as [-> | [-> | ->]]; auto. }
  rewrite (N LPAREN), (N RPAREN), (N LBRACE) by tauto.
  reflexivity.
Qed.

Lemma main_is_a_function_witness :
  Parser.parse_step 10 (mkToken KEYWORD "int")
    (Parser.init [mkToken KEYWORD "int"; mkToken KEYWORD "main";
                  mkToken DELIM ";"]) =
  Some (Parser.mk [mkToken KEYWORD "int"; mkToken KEYWORD "main";
                   mkToken DELIM ";"] 2 []
          ["Syntax Error: Missing '{' in function"]).
Proof.
  apply (main_is_a_function 10
           (Parser.init [mkToken KEYWORD "int"; mkToken KEYWORD "main";
                         mkToken DELIM ";"])
           (mkToken KEYWORD "int") (mkToken KEYWORD "main")
           [mkToken DELIM ";"]).
  - reflexivity.
  - reflexivity.
  - right. reflexivity.
  - reflexivity.
  - repeat split; discriminate.
Defined.
